(** * NetworkIQ: a shallow embedding of [networkiq.py]

    The development follows the layout of the Python file: the string
    primitives the program relies on, the CSV parser
    ([parse_linkedin_csv]), the classifier ([categorize_connection]), the
    two external collaborators ([search_tavily], [generate_blurb],
    [chat_with_network]) and the Flask routes that read, modify and write
    the single JSON data file.

    Conventions.  A Python [str] is a [string] of 8-bit characters, which
    agrees with Python on ASCII text.  A value that may be [None] is an
    [option]; Python truthiness of such a value is [truthy].  External
    effects (HTTP calls, the clock, sleeping) go through an explicit log of
    events; what the outside world answers is a parameter of the model. *)

From stdpp Require Import base option list strings gmap pretty.
From Stdlib Require Import Ascii ZArith.
Local Open Scope string_scope.

(** ** Python string primitives *)
Module PyStr.

(** [c.lower()] on one ASCII character. *)
Definition lower_ascii (c : ascii) : ascii :=
  let n := nat_of_ascii c in
  if (65 <=? n)%nat && (n <=? 90)%nat then ascii_of_nat (n + 32) else c.

(** [s.lower()]. *)
Fixpoint lower (s : string) : string :=
  match s with
  | EmptyString => EmptyString
  | String c s' => String (lower_ascii c) (lower s')
  end.

(** [s.startswith(p)]. *)
Fixpoint startswith (p s : string) : bool :=
  match p, s with
  | EmptyString, _ => true
  | String _ _, EmptyString => false
  | String a p', String b s' => bool_decide (a = b) && startswith p' s'
  end.

(** [s.endswith(p)]. *)
Definition endswith (p s : string) : bool :=
  startswith (String.rev p) (String.rev s).

(** [sub in s]: [sub] occurs somewhere in [s]. *)
Fixpoint contains (sub s : string) : bool :=
  startswith sub s ||
  match s with
  | EmptyString => false
  | String _ s' => contains sub s'
  end.

(** The ASCII characters that [str.isspace] accepts: tab, newline,
    vertical tab, form feed, carriage return, the four separators
    0x1c-0x1f and the space. *)
Definition isspace (c : ascii) : bool :=
  let n := nat_of_ascii c in
  ((9 <=? n)%nat && (n <=? 13)%nat) || ((28 <=? n)%nat && (n <=? 32)%nat).

Fixpoint lstrip (s : string) : string :=
  match s with
  | EmptyString => EmptyString
  | String c s' => if isspace c then lstrip s' else s
  end.

Fixpoint rstrip (s : string) : string :=
  match s with
  | EmptyString => EmptyString
  | String c s' =>
      match rstrip s' with
      | EmptyString => if isspace c then EmptyString else String c EmptyString
      | r => String c r
      end
  end.

(** [s.strip()]. *)
Definition strip (s : string) : string := rstrip (lstrip s).

(** [sep.join(l)]. *)
Fixpoint join (sep : string) (l : list string) : string :=
  match l with
  | [] => EmptyString
  | [x] => x
  | x :: l' => x +:+ sep +:+ join sep l'
  end.

(** [s[:n]]. *)
Fixpoint slice_to (n : nat) (s : string) : string :=
  match n, s with
  | S n', String c s' => String c (slice_to n' s')
  | _, _ => EmptyString
  end.

(** The double quote character, which is used inside prompts. *)
Definition dquote : string := String (ascii_of_nat 34) EmptyString.

(** Python truthiness of a string, and of a value that is a string or
    [None]. *)
Definition nonempty (s : string) : bool :=
  match s with EmptyString => false | String _ _ => true end.

Definition truthy (v : option string) : bool :=
  match v with Some s => nonempty s | None => false end.

(** [v or ''] for a value that is a string or [None]. *)
Definition or_empty (v : option string) : string :=
  match v with Some (String c s) => String c s | _ => EmptyString end.

(** [filter(None, l)] on values that are strings or [None]. *)
Definition filter_none (l : list (option string)) : list string :=
  omap (λ v, match v with
             | Some (String c s) => Some (String c s)
             | _ => None
             end) l.

(** How an f-string renders a value that is a string or [None]. *)
Definition fmt (v : option string) : string :=
  match v with Some s => s | None => "None" end.

End PyStr.
Import PyStr.

(** ** The stored data *)

(** The seventeen category tags. *)
Inductive category :=
| Founders | Executives | Leadership | Recruiting | Investors | Engineering
| Product | Design | Sales | Marketing | Consulting | Students | Data
| Finance | Legal | Operations | Other.

Global Instance category_eq_dec : EqDecision category.
Proof. solve_decision. Defined.

(** One connection, with the keys of the dictionary built by the parser. *)
Record conn := Conn {
  id : string;
  firstName : option string;
  lastName : option string;
  email : option string;
  company : option string;
  position : option string;
  url : option string;
  connectedOn : option string;
  blurb : option string;
  enrichedAt : option string;
  category_of : option category
}.

Global Instance conn_eq_dec : EqDecision conn.
Proof. solve_decision. Defined.

(** ** The classifier *)

(** The regular expressions of [categorize_connection] are alternations of
    literal words, some anchored at the start of the text with [^]. *)
Inductive trigger :=
| Anywhere (w : string)
| AtStart (w : string).

Definition trigger_matches (text : string) (t : trigger) : bool :=
  match t with
  | Anywhere w => contains w text
  | AtStart w => startswith w text
  end.

(** [re.search(pattern, text, re.I)] for such a pattern, written in lower
    case: the text is compared without regard to case. *)
Definition re_search (pattern : list trigger) (text : string) : bool :=
  existsb (trigger_matches (lower text)) pattern.

Definition re_founders := [Anywhere "founder"; Anywhere "co-founder"; Anywhere "cofounder"; Anywhere "owner"].
Definition re_executives := [AtStart "ceo"; AtStart "cto"; AtStart "cfo"; AtStart "coo"; AtStart "cmo"; AtStart "cio"; Anywhere "chief"].
Definition re_leadership := [AtStart "vp"; Anywhere "vice president"; Anywhere "director"; Anywhere "head of"].
Definition re_recruiting := [Anywhere "recruit"; Anywhere "talent"; Anywhere "hr"; Anywhere "human resource"; Anywhere "people ops"].
Definition re_investors := [Anywhere "investor"; Anywhere "partner"; Anywhere "vc"; Anywhere "venture"; Anywhere "capital"; Anywhere "angel"].
Definition re_engineering := [Anywhere "engineer"; Anywhere "developer"; Anywhere "software"; Anywhere "swe"; Anywhere "sde"; Anywhere "programmer"; Anywhere "architect"].
Definition re_product := [Anywhere "product"; Anywhere "pm"; Anywhere "program manager"].
Definition re_design := [Anywhere "design"; Anywhere "ux"; Anywhere "ui"; Anywhere "creative"].
Definition re_sales := [Anywhere "sales"; Anywhere "account"; Anywhere "business dev"; Anywhere "bd"].
Definition re_marketing := [Anywhere "market"; Anywhere "growth"; Anywhere "brand"; Anywhere "content"; Anywhere "seo"; Anywhere "social"].
Definition re_consulting := [Anywhere "consult"; Anywhere "advisor"; Anywhere "strateg"].
Definition re_students := [Anywhere "student"; Anywhere "intern"; Anywhere "university"; Anywhere "college"; Anywhere "phd"; Anywhere "research"].
Definition re_data := [Anywhere "analy"; Anywhere "data"; Anywhere "scientist"].
Definition re_finance := [Anywhere "finance"; Anywhere "accounting"; Anywhere "controller"].
Definition re_legal := [Anywhere "legal"; Anywhere "counsel"; Anywhere "attorney"; Anywhere "lawyer"].
Definition re_operations := [Anywhere "operat"; Anywhere "admin"; Anywhere "office"; Anywhere "assistant"].

(** [categorize_connection(conn)], which reads the [position] key only. *)
Definition categorize_position (pos : option string) : category :=
  let position := lower (or_empty pos) in
  if re_search re_founders position then Founders
  else if re_search re_executives position then Executives
  else if re_search re_leadership position then Leadership
  else if re_search re_recruiting position then Recruiting
  else if re_search re_investors position then Investors
  else if re_search re_engineering position then Engineering
  else if re_search re_product position then Product
  else if re_search re_design position then Design
  else if re_search re_sales position then Sales
  else if re_search re_marketing position then Marketing
  else if re_search re_consulting position then Consulting
  else if re_search re_students position then Students
  else if re_search re_data position then Data
  else if re_search re_finance position then Finance
  else if re_search re_legal position then Legal
  else if re_search re_operations position then Operations
  else Other.

Definition categorize_connection (c : conn) : category :=
  categorize_position (position c).

(** ** The [csv] module, as far as the parser uses it *)

(** What the program can raise. *)
Inductive exn :=
| AttributeError (msg : string)
| CsvError (msg : string)
| UpstreamError (msg : string).

(** [str(e)]. *)
Definition str_exn (e : exn) : string :=
  match e with AttributeError m | CsvError m | UpstreamError m => m end.

Module Csv.

(** The states of [csv.reader] for the default (excel) dialect: comma
    delimiter, double quote as quote character and doubled inside a
    quoted field, no escape character, initial spaces kept, not strict. *)
Inductive rstate :=
| START_RECORD | START_FIELD | IN_FIELD | IN_QUOTED_FIELD
| QUOTE_IN_QUOTED_FIELD | EAT_CRNL.

Global Instance rstate_eq_dec : EqDecision rstate.
Proof. solve_decision. Defined.

Record parser := Parser {
  state : rstate;
  fields : list string;
  field : string
}.

Definition parse_reset : parser := Parser START_RECORD [] EmptyString.

Definition field_limit : N := 131072.

Definition parse_save_field (p : parser) (st : rstate) : parser :=
  Parser st (fields p ++ [field p])%list EmptyString.

Definition parse_add_char (p : parser) (st : rstate) (c : ascii) : exn + parser :=
  if (field_limit <=? N.of_nat (String.length (field p)))%N
  then inl (CsvError "field larger than field limit (131072)")
  else inr (Parser st (fields p) (field p +:+ String c EmptyString)).

Definition is_newline (c : ascii) : bool :=
  bool_decide (c = ascii_of_nat 10) || bool_decide (c = ascii_of_nat 13).
Definition is_delimiter (c : ascii) : bool := bool_decide (c = ascii_of_nat 44).
Definition is_quotechar (c : ascii) : bool := bool_decide (c = ascii_of_nat 34).

(** One step of the reader on a character, or on the end of the line
    when [c] is [None]. *)
Definition parse_process_char (p : parser) (c : option ascii) : exn + parser :=
  let start_field :=
    match c with
    | None => inr (parse_save_field p START_RECORD)
    | Some a =>
        if is_newline a then inr (parse_save_field p EAT_CRNL)
        else if is_quotechar a then inr (Parser IN_QUOTED_FIELD (fields p) (field p))
        else if is_delimiter a then inr (parse_save_field p START_FIELD)
        else parse_add_char p IN_FIELD a
    end in
  match state p with
  | START_RECORD =>
      match c with
      | None => inr p
      | Some a =>
          if is_newline a then inr (Parser EAT_CRNL (fields p) (field p))
          else start_field
      end
  | START_FIELD => start_field
  | IN_FIELD =>
      match c with
      | None => inr (parse_save_field p START_RECORD)
      | Some a =>
          if is_newline a then inr (parse_save_field p EAT_CRNL)
          else if is_delimiter a then inr (parse_save_field p START_FIELD)
          else parse_add_char p IN_FIELD a
      end
  | IN_QUOTED_FIELD =>
      match c with
      | None => inr p
      | Some a =>
          if is_quotechar a then inr (Parser QUOTE_IN_QUOTED_FIELD (fields p) (field p))
          else parse_add_char p IN_QUOTED_FIELD a
      end
  | QUOTE_IN_QUOTED_FIELD =>
      match c with
      | None => inr (parse_save_field p START_RECORD)
      | Some a =>
          if is_quotechar a then parse_add_char p IN_QUOTED_FIELD a
          else if is_delimiter a then inr (parse_save_field p START_FIELD)
          else if is_newline a then inr (parse_save_field p EAT_CRNL)
          else parse_add_char p IN_FIELD a
      end
  | EAT_CRNL =>
      match c with
      | None => inr (Parser START_RECORD (fields p) (field p))
      | Some a =>
          if is_newline a then inr p
          else inl (CsvError "new-line character seen in unquoted field - do you need to open the file with newline=''?")
      end
  end.

(** The characters of one line, then the end of the line. *)
Fixpoint feed_line (p : parser) (line : string) : exn + parser :=
  match line with
  | EmptyString => parse_process_char p None
  | String c rest =>
      match parse_process_char p (Some c) with
      | inl e => inl e
      | inr p' => feed_line p' rest
      end
  end.

(** The rows that iterating over [csv.reader(lines)] yields, and the
    exception that ends the iteration, if one does.  A record goes on
    over the next line only inside a quoted field; input that ends there
    still yields the record. *)
Fixpoint reader_from (p : parser) (lines : list string) : list (list string) * option exn :=
  match lines with
  | [] =>
      if nonempty (field p) || bool_decide (state p = IN_QUOTED_FIELD)
      then ([(fields p ++ [field p])%list], None)
      else ([], None)
  | line :: rest =>
      match feed_line p line with
      | inl e => ([], Some e)
      | inr p' =>
          if bool_decide (state p' = START_RECORD)
          then let '(rows, e) := reader_from parse_reset rest in (fields p' :: rows, e)
          else reader_from p' rest
      end
  end.

Definition reader (lines : list string) : list (list string) * option exn :=
  reader_from parse_reset lines.

(** A Python dictionary with string keys: the items in insertion order,
    a key at most once. *)
Fixpoint dict_set {V} (k : string) (v : V) (d : list (string * V)) : list (string * V) :=
  match d with
  | [] => [(k, v)]
  | (k', v') :: d' => if decide (k = k') then (k, v) :: d' else (k', v') :: dict_set k v d'
  end.

(** A row of [csv.DictReader]: the values under the field names
    ([None] is the [restval] of a short row), and under the key [None]
    (the [restkey]) the surplus values of a long row. *)
Record row := Row {
  named : list (string * option string);
  surplus : option (list string)
}.

Definition make_row (fieldnames r : list string) : row :=
  let d := foldl (λ d kv, dict_set kv.1 (Some kv.2) d) [] (zip fieldnames r) in
  let lf := length fieldnames in
  let lr := length r in
  if decide (lf < lr) then Row d (Some (drop lf r))
  else if decide (lr < lf) then Row (foldl (λ d k, dict_set k None d) d (drop lr fieldnames)) None
  else Row d None.

Definition is_blank_row (r : list string) : bool :=
  match r with [] => true | _ => false end.

(** [csv.DictReader(lines)]: the first row gives the field names, empty
    rows after it are skipped. *)
Definition DictReader (lines : list string) : list row * option exn :=
  let '(rows, e) := reader lines in
  match rows with
  | [] => ([], e)
  | fieldnames :: rest =>
      (make_row fieldnames <$> filter (λ r, is_blank_row r = false) rest, e)
  end.

End Csv.

(** ** The parser *)

(** The test of the header search on one line. *)
Definition is_header_line (line : string) : bool :=
  contains "first name" (lower line) && contains "last name" (lower line).

(** The loop that looks for the header, started at index [i]; it leaves
    [header_idx] at 0 when no line passes the test. *)
Fixpoint find_header_from (i : nat) (lines : list string) : nat :=
  match lines with
  | [] => 0
  | line :: rest => if is_header_line line then i else find_header_from (S i) rest
  end.

Definition find_header (lines : list string) : nat := find_header_from 0 lines.

(** [{k.lower().strip(): v for k, v in row.items()}], which fails on the
    key [None] of a long row. *)
Definition normalize_row (r : Csv.row) : exn + gmap string (option string) :=
  match Csv.surplus r with
  | Some _ => inl (AttributeError "'NoneType' object has no attribute 'lower'")
  | None => inr (foldl (λ m kv, <[strip (lower kv.1) := kv.2]> m) ∅ (Csv.named r))
  end.

(** [row.get(key, '')]. *)
Definition row_get (r : gmap string (option string)) (key : string) : option string :=
  default (Some EmptyString) (r !! key).

(** The identifier of the record of row [i] built at clock reading [ms]. *)
Definition conn_id (i : nat) (ms : Z) : string :=
  "conn_" +:+ pretty i +:+ "_" +:+ pretty ms.

(** The dictionary built for row [i], before the category is set. *)
Definition build_conn (i : nat) (ms : Z) (r : gmap string (option string)) : conn :=
  {| id := conn_id i ms;
     firstName := row_get r "first name";
     lastName := row_get r "last name";
     email := row_get r "email address";
     company := row_get r "company";
     position := row_get r "position";
     url := row_get r "url";
     connectedOn := row_get r "connected on";
     blurb := None;
     enrichedAt := None;
     category_of := None |}.

Definition set_category (c : conn) (cat : category) : conn :=
  {| id := id c; firstName := firstName c; lastName := lastName c;
     email := email c; company := company c; position := position c;
     url := url c; connectedOn := connectedOn c; blurb := blurb c;
     enrichedAt := enrichedAt c; category_of := Some cat |}.

(** The test [conn["firstName"] or conn["lastName"]]. *)
Definition has_name (c : conn) : bool :=
  truthy (firstName c) || truthy (lastName c).

(** The body of the loop over [enumerate(reader)], from ordinal [i] on,
    with the list [connections] built so far.  [now i] is what
    [int(time.time()*1000)] gives when row [i] is handled. *)
Fixpoint parse_rows (now : nat → Z) (i : nat) (rows : list Csv.row)
    (connections : list conn) : exn + list conn :=
  match rows with
  | [] => inr connections
  | r :: rest =>
      match normalize_row r with
      | inl e => inl e
      | inr r' =>
          let c := build_conn i (now i) r' in
          if has_name c
          then parse_rows now (S i) rest (connections ++ [set_category c (categorize_connection c)])%list
          else parse_rows now (S i) rest connections
      end
  end.

(** The part of [parse_linkedin_csv] after the header search: the reader
    over the remaining lines and the loop over its rows.  The rows come
    one at a time, so an exception of the reader is raised after the rows
    before it have been handled. *)
Definition parse_from_header (now : nat → Z) (lines : list string) : exn + list conn :=
  let '(rows, e) := Csv.DictReader lines in
  match parse_rows now 0 rows [] with
  | inl e' => inl e'
  | inr connections =>
      match e with
      | Some e' => inl e'
      | None => inr connections
      end
  end.

(** [parse_linkedin_csv], on the lines of the file. *)
Definition parse_linkedin_csv (now : nat → Z) (lines : list string) : exn + list conn :=
  let header_idx := find_header lines in
  parse_from_header now (drop header_idx lines).

(** ** The data file and the outside world *)

Record api_keys := ApiKeys { tavily : string; gemini : string }.

(** The content of [networkiq_data.json]. *)
Record data := MkData { connections : list conn; keys : api_keys }.

(** What [load_data] returns when the file does not exist. *)
Definition default_data : data := MkData [] (ApiKeys EmptyString EmptyString).

(** One result of a search; a field is [None] when the key is missing. *)
Record hit := Hit { title : option string; content : option string }.

(** The JSON answer of the search provider; [results] is [None] when the
    key is missing. *)
Record search_results := SearchResults { results : option (list hit) }.

(** The calls that leave the process, and the pauses between them. *)
Inductive event :=
| TavilySearch (query key : string)
| GeminiGenerate (model prompt key : string)
| Sleep (milliseconds : nat).

(** What the outside answers, given the events so far.  A provider call
    raises ([inl]: no connection, timeout, a status that
    [raise_for_status] refuses, a body that is no JSON) or gives the
    decoded body.  For the generation provider the body is reduced to what
    the program reads of it: the text at
    [candidates[0].content.parts[0].text], or [None] when that path is
    missing. *)
Record outside := Outside {
  tavily_answer : list event → string → string → exn + search_results;
  gemini_answer : list event → string → string → string → exn + option string;
  gmtime : list event → string;
  time_ms : list event → nat → Z
}.

Record world := World { file : option data; log : list event }.

(** Computations that read and write the world and may raise. *)
Definition M (A : Type) : Type := world → (exn + A) * world.

Global Instance M_ret : MRet M := λ A a w, (inr a, w).

Global Instance M_bind : MBind M := λ A B f m w,
  match m w with
  | (inl e, w') => (inl e, w')
  | (inr a, w') => f a w'
  end.

Definition raise {A} (e : exn) : M A := λ w, (inl e, w).

(** [try: body except Exception as e: handler]. *)
Definition try_except {A} (body : M A) (handler : exn → M A) : M A := λ w,
  match body w with
  | (inl e, w') => handler e w'
  | (inr a, w') => (inr a, w')
  end.

Definition emit (ev : event) : M unit := λ w,
  (inr (), World (file w) (log w ++ [ev])%list).

(** A call to the outside: the answer depends on the events before it. *)
Definition call {A} (ev : event) (answer : list event → exn + A) : M A := λ w,
  (answer (log w), World (file w) (log w ++ [ev])%list).

Definition ask {A} (f : list event → A) : M A := λ w, (inr (f (log w)), w).

Definition load_data : M data := λ w, (inr (default default_data (file w)), w).

Definition save_data (d : data) : M unit := λ w, (inr (), World (Some d) (log w)).

Definition unlink_data : M unit := λ w, (inr (), World None (log w)).

(** ** The external collaborators *)

Definition nl : string := String (ascii_of_nat 10) EmptyString.

Definition search_tavily (env : outside) (query api_key : string) : M search_results :=
  call (TavilySearch query api_key) (λ l, tavily_answer env l query api_key).

Definition blurb_prompt (person_name context : string) : string :=
  "Based on these web search results about " +:+ dquote +:+ person_name +:+ dquote +:+
  ", write a concise 2-3 sentence professional summary. Focus on their current role, company, and notable achievements. If the search results don't seem relevant to this specific person, just write " +:+
  dquote +:+ "Professional on LinkedIn" +:+ dquote +:+
  " and nothing else. Be factual, not flowery." +:+ nl +:+ nl +:+
  "Search results:" +:+ nl +:+ context +:+ nl +:+ nl +:+
  "Write only the summary, nothing else:".

Definition generate_blurb (env : outside) (sr : search_results)
    (person_name api_key : string) : M string :=
  let results := default [] (results sr) in
  let context :=
    slice_to 3000
      (join nl ((λ r, "- " +:+ default EmptyString (title r) +:+ ": " +:+
                      default EmptyString (content r)) <$> results)) in
  let context :=
    if nonempty (strip context) then context else "No search results found." in
  let prompt := blurb_prompt person_name context in
  text ← call (GeminiGenerate "gemini-2.5-flash-lite" prompt api_key)
              (λ l, gemini_answer env l "gemini-2.5-flash-lite" prompt api_key);
  match text with
  | Some t => mret (strip t)
  | None => mret "Professional on LinkedIn."
  end.

Definition network_line (c : conn) : string :=
  "• " +:+ fmt (firstName c) +:+ " " +:+ fmt (lastName c) +:+ ": " +:+
  fmt (position c) +:+ " at " +:+ fmt (company c) +:+
  (if truthy (blurb c) then " - " +:+ fmt (blurb c) else EmptyString).

Definition chat_prompt (query : string) (connections : list conn) : string :=
  "You are an assistant helping analyze a professional LinkedIn network. Below is the user's network of " +:+
  pretty (length connections) +:+ " connections." +:+ nl +:+ nl +:+
  "NETWORK:" +:+ nl +:+ join nl (network_line <$> connections) +:+ nl +:+ nl +:+
  "USER QUERY: " +:+ query +:+ nl +:+ nl +:+
  "Analyze the network and provide a helpful, specific response. Reference specific people by name when relevant. Be concise but thorough.".

Definition chat_with_network (env : outside) (query : string)
    (connections : list conn) (api_key : string) : M string :=
  let prompt := chat_prompt query connections in
  text ← call (GeminiGenerate "gemini-2.5-flash" prompt api_key)
              (λ l, gemini_answer env l "gemini-2.5-flash" prompt api_key);
  match text with
  | Some t => mret (strip t)
  | None => mret "Unable to generate response."
  end.

(** ** The routes *)

(** The JSON bodies the routes answer with. *)
Inductive body :=
| JError (error : string)
| JData (connections : list conn) (hasKeys : bool)
| JSuccess
| JUploaded (count : nat)
| JBlurb (blurb : string)
| JBatchNone (enriched remaining : nat)
| JBatch (enriched remaining : nat) (errors : list string)
| JChat (response : string).

(** A body and an HTTP status. *)
Definition response : Type := body * nat.

(** [GET /api/data]. *)
Definition get_data : M response :=
  d ← load_data;
  mret (JData (connections d)
              (nonempty (tavily (keys d)) && nonempty (gemini (keys d))), 200).

(** [POST /api/keys]. *)
Definition save_keys (new_tavily new_gemini : string) : M response :=
  d ← load_data;
  _ ← save_data (MkData (connections d) (ApiKeys new_tavily new_gemini));
  mret (JSuccess, 200).

(** [POST /api/upload]: [upload] is [None] when the request has no file,
    else the name of the file and its lines as [readlines] gives them. *)
Definition upload_csv (env : outside) (upload : option (string * list string)) : M response :=
  match upload with
  | None => mret (JError "No file uploaded", 400)
  | Some (filename, lines) =>
      if negb (endswith ".csv" filename) then mret (JError "Must be a CSV file", 400)
      else
        now ← ask (time_ms env);
        match parse_linkedin_csv now lines with
        | inl e => raise e
        | inr [] => mret (JError "No connections found in CSV", 400)
        | inr parsed =>
            d ← load_data;
            _ ← save_data (MkData parsed (keys d));
            mret (JUploaded (length parsed), 200)
        end
  end.

(** The two lines that both enrichment routes start with. *)
Definition person_name (c : conn) : string :=
  strip (fmt (firstName c) +:+ " " +:+ fmt (lastName c)).

Definition search_query (c : conn) : string :=
  join " " (filter_none [Some (person_name c); position c; company c]).

(** The two assignments that record an enrichment. *)
Definition set_enrichment (c : conn) (new_blurb stamp : string) : conn :=
  {| id := id c; firstName := firstName c; lastName := lastName c;
     email := email c; company := company c; position := position c;
     url := url c; connectedOn := connectedOn c; blurb := Some new_blurb;
     enrichedAt := Some stamp; category_of := category_of c |}.

(** The test [not api_keys.get("tavily") or not api_keys.get("gemini")]. *)
Definition keys_missing (k : api_keys) : bool :=
  negb (nonempty (tavily k)) || negb (nonempty (gemini k)).

(** [POST /api/enrich]; [conn_id] is [None] when the request carries no
    identifier. *)
Definition enrich_connection (env : outside) (conn_id : option string) : M response :=
  d ← load_data;
  let api_keys := keys d in
  if keys_missing api_keys then mret (JError "API keys not configured", 400)
  else
    match list_find (λ c, Some (id c) = conn_id) (connections d) with
    | None => mret (JError "Connection not found", 404)
    | Some (i, c) =>
        try_except
          (let name := person_name c in
           let query := search_query c in
           sr ← search_tavily env query (tavily api_keys);
           new_blurb ← generate_blurb env sr name (gemini api_keys);
           stamp ← ask (gmtime env);
           _ ← save_data (MkData (<[i := set_enrichment c new_blurb stamp]> (connections d)) (keys d));
           mret (JBlurb new_blurb, 200))
          (λ e, mret (JError (str_exn e), 500))
    end.

(** The positions, from [i] on, of the records that pass
    [not c.get("blurb")]. *)
Fixpoint unenriched_from (i : nat) (cs : list conn) : list nat :=
  match cs with
  | [] => []
  | c :: cs' =>
      if truthy (blurb c) then unenriched_from (S i) cs'
      else i :: unenriched_from (S i) cs'
  end.

(** The list [unenriched] of the batch route.  The Python list holds the
    dictionaries of [data["connections"]] themselves, so a record is
    named here by its position in that list. *)
Definition unenriched (cs : list conn) : list nat :=
  take 10 (unenriched_from 0 cs).

(** The loop of the batch route over the selected records, with the
    local variables [data["connections"]], [enriched_count], [errors]. *)
Fixpoint batch_loop (env : outside) (api_keys : api_keys) (selected : list nat)
    (cs : list conn) (enriched_count : nat) (errors : list string)
    : M (list conn * nat * list string) :=
  match selected with
  | [] => mret (cs, enriched_count, errors)
  | i :: rest =>
      match cs !! i with
      | None => batch_loop env api_keys rest cs enriched_count errors
      | Some c =>
          let name := person_name c in
          st ← try_except
                 (let query := search_query c in
                  sr ← search_tavily env query (tavily api_keys);
                  _ ← emit (Sleep 100);
                  new_blurb ← generate_blurb env sr name (gemini api_keys);
                  stamp ← ask (gmtime env);
                  _ ← emit (Sleep 4000);
                  mret (<[i := set_enrichment c new_blurb stamp]> cs,
                        S enriched_count, errors))
                 (λ e, mret (cs, enriched_count,
                             (errors ++ [name +:+ ": " +:+ str_exn e])%list));
          batch_loop env api_keys rest st.1.1 st.1.2 st.2
      end
  end.

(** [POST /api/enrich-batch]. *)
Definition enrich_batch (env : outside) : M response :=
  d ← load_data;
  let api_keys := keys d in
  if keys_missing api_keys then mret (JError "API keys not configured", 400)
  else
    match unenriched (connections d) with
    | [] => mret (JBatchNone 0 0, 200)
    | selected =>
        st ← batch_loop env api_keys selected (connections d) 0 [];
        _ ← save_data (MkData st.1.1 (keys d));
        let remaining := length (unenriched_from 0 st.1.1) in
        mret (JBatch st.1.2 remaining st.2, 200)
    end.

(** [POST /api/chat]. *)
Definition chat (env : outside) (query : string) : M response :=
  if negb (nonempty (strip query)) then mret (JError "No query provided", 400)
  else
    d ← load_data;
    let api_keys := keys d in
    if negb (nonempty (gemini api_keys))
    then mret (JError "Gemini API key not configured", 400)
    else
      try_except
        (answer ← chat_with_network env query (connections d) (gemini api_keys);
         mret (JChat answer, 200))
        (λ e, mret (JError (str_exn e), 500)).

(** [POST /api/reset]. *)
Definition reset_data : M response :=
  _ ← unlink_data;
  mret (JSuccess, 200).

(** The requests the routes answer. *)
Inductive request :=
| GetData
| SaveKeys (new_tavily new_gemini : string)
| UploadCsv (upload : option (string * list string))
| EnrichConnection (conn_id : option string)
| EnrichBatch
| Chat (query : string)
| ResetData.

Definition handle (env : outside) (r : request) : M response :=
  match r with
  | GetData => get_data
  | SaveKeys t g => save_keys t g
  | UploadCsv u => upload_csv env u
  | EnrichConnection i => enrich_connection env i
  | EnrichBatch => enrich_batch env
  | Chat q => chat env q
  | ResetData => reset_data
  end.

(** The world after a sequence of requests, one at a time. *)
Definition serve (env : outside) (rs : list request) (w : world) : world :=
  foldl (λ w r, (handle env r w).2) w rs.

(** The process starts with no data file and nothing sent. *)
Definition initial_world : world := World None [].

(** The records and the credentials a reader of the data file sees. *)
Definition stored (w : world) : list conn :=
  connections (default default_data (file w)).

Definition credentials (w : world) : api_keys :=
  keys (default default_data (file w)).

(** The part of one iteration of the batch loop that can raise: the two
    provider calls with their pauses.  It gives the summary and the
    timestamp that the iteration stores. *)
Definition batch_attempt (env : outside) (api_keys : api_keys) (c : conn) : M (string * string) :=
  sr ← search_tavily env (search_query c) (tavily api_keys);
  _ ← emit (Sleep 100);
  new_blurb ← generate_blurb env sr (person_name c) (gemini api_keys);
  stamp ← ask (gmtime env);
  _ ← emit (Sleep 4000);
  mret (new_blurb, stamp).

(** ** Reference formulations

    The definitions below restate, in the words of the specification,
    what the code above is compared with. *)

(** The classifier as an ordered table of rules, the first match wins. *)
Definition classifier_rules : list (list trigger * category) :=
  [ (re_founders, Founders); (re_executives, Executives);
    (re_leadership, Leadership); (re_recruiting, Recruiting);
    (re_investors, Investors); (re_engineering, Engineering);
    (re_product, Product); (re_design, Design); (re_sales, Sales);
    (re_marketing, Marketing); (re_consulting, Consulting);
    (re_students, Students); (re_data, Data); (re_finance, Finance);
    (re_legal, Legal); (re_operations, Operations) ].

Fixpoint first_match (rules : list (list trigger * category)) (text : string) : category :=
  match rules with
  | [] => Other
  | (pattern, tag) :: rest =>
      if re_search pattern text then tag else first_match rest text
  end.

(** A rule that comes after the Leadership rule matches. *)
Definition later_rule_matches (text : string) : bool :=
  existsb (λ r, re_search r.1 text) (drop 3 classifier_rules).

(** A name field is non-empty after trimming. *)
Definition nonempty_after_trim (v : option string) : bool :=
  nonempty (strip (or_empty v)).

(** The record of a kept row, with its category. *)
Definition classify (c : conn) : conn := set_category c (categorize_connection c).

(** The records of the rows that have a name, in the order of the rows;
    row [i] gets ordinal [i]. *)
Definition kept_records (now : nat → Z) (rows : list (gmap string (option string))) : list conn :=
  classify <$> filter (λ c, has_name c = true) (imap (λ i r, build_conn i (now i) r) rows).


(** The program's own test for a record with a summary: a blurb that is
    a non-empty string. *)
Definition has_summary (c : conn) : bool := truthy (blurb c).

(** Summary and timestamp are both [None] or both set. *)
Definition paired (c : conn) : Prop := blurb c = None ↔ enrichedAt c = None.

(** The line that a failed record adds to [errors]. *)
Definition error_line (c : conn) (e : exn) : string :=
  person_name c +:+ ": " +:+ str_exn e.

(** The record at position [j] exists and has no summary. *)
Definition lacks_summary (cs : list conn) (j : nat) : bool :=
  match cs !! j with
  | Some c => negb (has_summary c)
  | None => false
  end.

(** The query and key of the search for the record at position [j]. *)
Definition search_of (k : api_keys) (cs : list conn) (j : nat) : option (string * string) :=
  (λ c, (search_query c, tavily k)) <$> cs !! j.

(** The searches among a list of events: query and key of each. *)
Definition searches (l : list event) : list (string * string) :=
  omap (λ ev, match ev with TavilySearch q k => Some (q, k) | _ => None end) l.

(** ** Sample inputs for the examples *)

(** An outside where the search fails for a query that contains
    [Nobody] and the generation gives a blank text for a prompt that
    contains [Blank]. *)
Definition sample_outside : outside := Outside
  (λ _ query _,
     if contains "Nobody" query then inl (UpstreamError "503 Server Error")
     else inr (SearchResults (Some [Hit (Some "Profile") (Some "Works at Acme")])))
  (λ _ _ prompt _,
     if contains "Blank" prompt then inr (Some "  ") else inr (Some " Works at Acme. "))
  (λ l, "2026-01-01T00:00:00Z")
  (λ _ _, 1767225600000%Z).

Definition sample_conn (i first last title : string) (b stamp : option string) : conn :=
  Conn i (Some first) (Some last) (Some EmptyString) (Some "Acme") (Some title)
       (Some EmptyString) (Some EmptyString) b stamp
       (Some (categorize_position (Some title))).

Definition sample_lines : list string :=
  [ "Notes:" +:+ nl; nl; "First Name,Last Name,Company,Position" +:+ nl;
    "Jane,Doe,Acme,Founder" +:+ nl; " ," +:+ nl; ",,Acme,Clerk" +:+ nl ].

(** Two records without a summary: the search for the first one fails,
    the generation for the second one gives a blank text. *)
Definition failing_batch_world : world :=
  World (Some (MkData [sample_conn "conn_0_1" "Nobody" "Home" "Engineer" None None;
                       sample_conn "conn_1_1" "Blank" "Page" "Designer" None None]
                      (ApiKeys "tvly-key" "AIza-key"))) [].

(** A file whose first data row has a last name only, and one whose
    data row ends after the first name. *)
Definition last_name_only_lines : list string :=
  [ "First Name,Last Name" +:+ nl; ",Doe" +:+ nl; "," +:+ nl ].

Definition short_row_lines : list string :=
  [ "First Name,Last Name,Company,Position" +:+ nl; "Jane" +:+ nl ].



(** ** Further reference formulations *)

(** The text that [generate_blurb] puts under [Search results:] in its
    prompt: the first 3000 characters of the result lines, or the
    placeholder when these are blank. *)
Definition blurb_context (sr : search_results) : string :=
  let context :=
    slice_to 3000
      (join nl ((λ r, "- " +:+ default EmptyString (title r) +:+ ": " +:+
                      default EmptyString (content r)) <$> default [] (results sr))) in
  if nonempty (strip context) then context else "No search results found.".

(** A record as the parser leaves it, apart from the enrichment: it has
    a name and carries the category of its own title. *)
Definition ingested (c : conn) : Prop :=
  has_name c = true ∧ category_of c = Some (categorize_connection c).

(** [c'] is [c], or [c] with a summary and a timestamp stored. *)
Definition enriched_from (c c' : conn) : Prop :=
  c' = c ∨ ∃ b t, c' = set_enrichment c b t.

(** The generation provider never answers with a blank text. *)
Definition never_blank (env : outside) : Prop :=
  ∀ l model prompt key t,
    gemini_answer env l model prompt key = inr (Some t) → strip t ≠ EmptyString.

(** Neither provider ever raises. *)
Definition never_raises (env : outside) : Prop :=
  (∀ l query key, ∃ sr, tavily_answer env l query key = inr sr) ∧
  (∀ l model prompt key, ∃ t, gemini_answer env l model prompt key = inr t).

(** The number of records that fail the test [c.get("blurb")]. *)
Definition remaining_count (cs : list conn) : nat :=
  length (unenriched_from 0 cs).

(** The milliseconds slept, and the number of generation calls, in a
    list of events. *)
Definition slept (l : list event) : nat :=
  foldr (λ ev acc, match ev with Sleep ms => ms + acc | _ => acc end) 0 l.

Definition generations (l : list event) : nat :=
  length (omap (λ ev, match ev with GeminiGenerate m p k => Some (m, p, k) | _ => None end) l).

(** An outside where every call succeeds with a fixed answer. *)
Definition steady_outside : outside := Outside
  (λ _ _ _, inr (SearchResults (Some [Hit (Some "Profile") (Some "Works at Acme")])))
  (λ _ _ _ _, inr (Some " Works at Acme. "))
  (λ l, "2026-01-01T00:00:00Z")
  (λ _ _, 1767225600000%Z).

(** Decimal digits, and the strings made of them. *)
Definition is_digit (c : ascii) : bool :=
  let n := nat_of_ascii c in (48 <=? n)%nat && (n <=? 57)%nat.

Fixpoint digits (s : string) : bool :=
  match s with
  | EmptyString => true
  | String c s' => is_digit c && digits s'
  end.

(** A CSV file with a row that has more fields than the header. *)
Definition long_row_lines : list string :=
  [ "First Name,Last Name" +:+ nl; "Jane,Doe" +:+ nl; "John,Roe,Jr" +:+ nl ].

(** The part of the single enrichment that can raise: the two provider
    calls and the clock reading.  It gives the summary and the timestamp
    that the route stores. *)
Definition enrich_attempt (env : outside) (api_keys : api_keys) (c : conn) : M (string * string) :=
  sr ← search_tavily env (search_query c) (tavily api_keys);
  new_blurb ← generate_blurb env sr (person_name c) (gemini api_keys);
  stamp ← ask (gmtime env);
  mret (new_blurb, stamp).

(** A call that carries the stored credential of its provider, which is
    not empty.  A pause carries nothing. *)
Definition sent_with (k : api_keys) (ev : event) : Prop :=
  match ev with
  | TavilySearch _ key => key = tavily k ∧ key ≠ EmptyString
  | GeminiGenerate _ _ key => key = gemini k ∧ key ≠ EmptyString
  | Sleep _ => True
  end.

(** * Properties *)

(** ** Strings *)
Section Strings.

Lemma lower_ascii_idemp c : lower_ascii (lower_ascii c) = lower_ascii c.
Proof. by destruct c as [[] [] [] [] [] [] [] []]. Qed.

Lemma lower_idemp s : lower (lower s) = lower s.
Proof. induction s as [|c s IH]; simpl; [done|]. by rewrite lower_ascii_idemp, IH. Qed.

Lemma startswith_spec p s : startswith p s = true ↔ ∃ t, s = p +:+ t.
Proof.
  revert s. induction p as [|a p IH]; intros s; simpl.
  - split; [intros _; by exists s | done].
  - destruct s as [|b s]; simpl.
    + split; [done | by intros [t ?]].
    + rewrite andb_true_iff, bool_decide_eq_true, IH. split.
      * intros [-> [t ->]]. by exists t.
      * intros [t [= -> ->]]. split; [done | by exists t].
Qed.

Lemma contains_spec sub s :
  contains sub s = true ↔ ∃ a b, s = a +:+ sub +:+ b.
Proof.
  induction s as [|c s IH]; simpl.
  - rewrite orb_false_r, startswith_spec. split.
    + intros [t Ht]. by exists EmptyString, t.
    + intros [a [b Hab]]. destruct a; simpl in *; [by exists b | done].
  - rewrite orb_true_iff, startswith_spec, IH. split.
    + intros [[t Ht] | [a [b ->]]]; [by exists EmptyString, t |].
      by exists (String c a), b.
    + intros [[|c' a] [b Hab]]; simpl in *.
      * left. by exists b.
      * right. injection Hab as -> ->. by exists a, b.
Qed.

Lemma or_empty_Some s : or_empty (Some s) = s.
Proof. by destruct s. Qed.

Lemma truthy_spec v : truthy v = true ↔ ∃ s, v = Some s ∧ s ≠ EmptyString.
Proof.
  destruct v as [[|c s]|]; simpl; split; try done.
  - by intros [s [[= <-] ?]].
  - intros _. by exists (String c s).
  - by intros [s [? ?]].
Qed.

End Strings.

(** ** The classifier *)
Section Classifier.

Lemma re_search_lower pattern text :
  re_search pattern (lower text) = re_search pattern text.
Proof. unfold re_search. by rewrite lower_idemp. Qed.

Lemma categorize_is_first_match pos :
  categorize_position pos = first_match classifier_rules (or_empty pos).
Proof.
  unfold categorize_position, classifier_rules; cbn [first_match].
  by rewrite !re_search_lower.
Qed.

(** C6, as the code has it.  The classifier returns the tag of the
    first rule, in the fixed order of the table, whose pattern matches
    the title.  A title that matches a Leadership trigger is classified
    as Leadership when it matches no trigger of the two rules before
    it, Founders and Executives, whatever later rule it matches as
    well; so are the titles [VP of Sales] and
    [Head of Engineering at Acme].  An empty or absent title is
    classified as Other. *)
Theorem classifier_first_match_wins :
  (∀ c, categorize_connection c
        = first_match classifier_rules (or_empty (position c))) ∧
  (∀ c title,
      position c = Some title →
      re_search re_leadership title = true →
      re_search re_founders title = false →
      re_search re_executives title = false →
      categorize_connection c = Leadership) ∧
  (∀ c, position c = Some "VP of Sales" → categorize_connection c = Leadership) ∧
  (∀ c, position c = Some "Head of Engineering at Acme" →
        categorize_connection c = Leadership) ∧
  (∀ c, position c = Some EmptyString ∨ position c = None →
        categorize_connection c = Other).
Proof.
  unfold categorize_connection. repeat split.
  - intros c. apply categorize_is_first_match.
  - intros c title -> Hl Hf He.
    rewrite categorize_is_first_match, or_empty_Some.
    unfold classifier_rules; cbn [first_match]. by rewrite Hf, He, Hl.
  - by intros c ->.
  - by intros c ->.
  - by intros c [-> | ->].
Qed.

Lemma classifier_first_match_wins_witness :
  categorize_connection
    (sample_conn "conn_0_1" "Ann" "Lee" "Director of Marketing" None None)
  = Leadership.
Proof.
  eapply (proj1 (proj2 classifier_first_match_wins)); reflexivity.
Defined.

(** A title that matches a Leadership trigger ([director]) and the
    trigger of a later rule ([sales]) and is not classified as
    Leadership: the Founders rule comes first. *)
Lemma leadership_trigger_can_lose :
  ∃ title,
    re_search re_leadership title = true ∧
    later_rule_matches title = true ∧
    re_search re_sales title = true ∧
    categorize_position (Some title) = Founders ∧
    categorize_position (Some title) ≠ Leadership.
Proof. exists "Founder and Director of Sales". by repeat split. Qed.

End Classifier.

(** ** The parser *)
Section Parser.

Variable now : nat → Z.

Lemma has_name_spec c :
  has_name c = true ↔
  ∃ s, s ≠ EmptyString ∧ (firstName c = Some s ∨ lastName c = Some s).
Proof.
  unfold has_name. rewrite orb_true_iff, !truthy_spec. split.
  - intros [(s & ? & ?) | (s & ? & ?)]; exists s; auto.
  - intros (s & ? & [? | ?]); [left | right]; by exists s.
Qed.

Lemma normalize_rows_inj rows rows1 rows2 :
  Forall2 (λ r r', normalize_row r = inr r') rows rows1 →
  Forall2 (λ r r', normalize_row r = inr r') rows rows2 →
  rows1 = rows2.
Proof.
  intros H. revert rows2.
  induction H as [|r r' rows rows' Hr H IH]; intros rows2 H'.
  - by apply Forall2_nil_inv_l in H' as ->.
  - apply Forall2_cons_inv_l in H' as (r2 & rows3 & Hr2 & H' & ->).
    assert (r2 = r') as -> by congruence.
    f_equal. by apply IH.
Qed.

(** The loop from ordinal [i] with [acc] built so far: it returns
    exactly when every row can be normalized, and then appends the
    records of the rows with a name. *)
Lemma parse_rows_spec rows i acc conns :
  parse_rows now i rows acc = inr conns ↔
  ∃ rows',
    Forall2 (λ r r', normalize_row r = inr r') rows rows' ∧
    conns = (acc ++ (classify <$>
               filter (λ c, has_name c = true)
                 (imap (λ k r, build_conn (i + k) (now (i + k)) r) rows')))%list.
Proof.
  revert i acc. induction rows as [|r rows IH]; intros i acc; simpl.
  - split.
    + intros [= <-]. exists []. split; [constructor|]. by rewrite app_nil_r.
    + intros [rows' [H ->]]. apply Forall2_nil_inv_l in H as ->.
      simpl. by rewrite app_nil_r.
  - destruct (normalize_row r) as [e|r'] eqn:Hr.
    + split; [done|]. intros [rows' [H _]].
      apply Forall2_cons_inv_l in H as (? & ? & ? & ? & ?). congruence.
    + assert (Hshift : ∀ l : list (gmap string (option string)),
                imap ((λ k r0, build_conn (i + k) (now (i + k)) r0) ∘ S) l
                = imap (λ k r0, build_conn (S i + k) (now (S i + k)) r0) l).
      { intros l. apply imap_ext. intros k x _. simpl.
        by replace (i + S k) with (S (i + k)) by lia. }
      destruct (has_name (build_conn i (now i) r')) eqn:Hn; rewrite IH; split.
      * intros [rows' [H ->]]. exists (r' :: rows'). split; [by constructor|].
        rewrite imap_cons, Nat.add_0_r, filter_cons_True by done.
        rewrite Hshift, <- app_assoc. done.
      * intros [rows'' [H ->]].
        apply Forall2_cons_inv_l in H as (r2 & rows' & Hr2 & H & ->).
        assert (r2 = r') as -> by congruence.
        exists rows'. split; [done|].
        rewrite imap_cons, Nat.add_0_r, filter_cons_True by done.
        rewrite Hshift, <- app_assoc. done.
      * intros [rows' [H ->]]. exists (r' :: rows'). split; [by constructor|].
        rewrite imap_cons, Nat.add_0_r, filter_cons_False by congruence.
        by rewrite Hshift.
      * intros [rows'' [H ->]].
        apply Forall2_cons_inv_l in H as (r2 & rows' & Hr2 & H & ->).
        assert (r2 = r') as -> by congruence.
        exists rows'. split; [done|].
        rewrite imap_cons, Nat.add_0_r, filter_cons_False by congruence.
        by rewrite Hshift.
Qed.

(** C1, as the code has it.  The parse returns exactly when the reader
    raises nothing and no row has more fields than the header; its
    result is then, in the order of the rows, one record for each row
    whose first name or last name is a non-empty string as read (no
    whitespace is trimmed from the values), and nothing for a row where
    both are empty or missing: such a row raises no error.  Row by row:
    the record built from a row is in the result if and only if the
    value of the row under [first name] or under [last name] is a
    non-empty string. *)
Theorem parse_keeps_rows_with_a_name lines conns :
  parse_linkedin_csv now lines = inr conns ↔
  ∃ rows',
    (Csv.DictReader (drop (find_header lines) lines)).2 = None ∧
    Forall2 (λ r r', normalize_row r = inr r')
            (Csv.DictReader (drop (find_header lines) lines)).1 rows' ∧
    conns = kept_records now rows' ∧
    (∀ c, c ∈ conns → ∃ s, s ≠ EmptyString ∧ (firstName c = Some s ∨ lastName c = Some s)) ∧
    (∀ i r, rows' !! i = Some r →
       (classify (build_conn i (now i) r) ∈ conns ↔
        ∃ s, s ≠ EmptyString ∧
             (row_get r "first name" = Some s ∨ row_get r "last name" = Some s))).
Proof.
  unfold parse_linkedin_csv, parse_from_header, kept_records.
  destruct (Csv.DictReader (drop (find_header lines) lines)) as [rows e]; simpl.
  destruct (parse_rows now 0 rows []) as [e'|cs] eqn:Hp.
  - split; [done|]. intros (rows' & -> & H & -> & _).
    assert (parse_rows now 0 rows [] = inr
      ([] ++ (classify <$> filter (λ c, has_name c = true)
         (imap (λ k r, build_conn (0 + k) (now (0 + k)) r) rows')))%list) as Hq
      by (apply parse_rows_spec; eauto).
    congruence.
  - apply parse_rows_spec in Hp as (rows' & H & ->). simpl.
    assert (Hmem : ∀ c, c ∈ classify <$> filter (λ c, has_name c = true)
               (imap (λ k r, build_conn k (now k) r) rows') →
             ∃ s, s ≠ EmptyString ∧ (firstName c = Some s ∨ lastName c = Some s)).
    { intros c (c0 & -> & Hc)%list_elem_of_fmap.
      apply list_elem_of_filter in Hc as [Hc _].
      by apply has_name_spec in Hc. }
    assert (Hrow : ∀ i r, rows' !! i = Some r →
               (classify (build_conn i (now i) r)
                  ∈ classify <$> filter (λ c, has_name c = true)
                      (imap (λ k r, build_conn k (now k) r) rows') ↔
                ∃ s, s ≠ EmptyString ∧
                     (row_get r "first name" = Some s ∨ row_get r "last name" = Some s))).
    { intros i r Hi. split.
      - intros Hin. apply Hmem in Hin. exact Hin.
      - intros Hs. apply list_elem_of_fmap. exists (build_conn i (now i) r).
        split; [done|]. apply list_elem_of_filter. split.
        + by apply has_name_spec.
        + apply elem_of_lookup_imap. by exists i, r. }
    destruct e as [e|]; split.
    + done.
    + by intros (? & ? & _).
    + intros [= <-]. exists rows'. done.
    + intros (rows'' & _ & H' & -> & _).
      by rewrite (normalize_rows_inj _ _ _ H H').
Qed.

(** A row whose first name is a single space and whose last name is
    empty contributes a record, although both are empty after trimming;
    the row with two empty names after it contributes none. *)
Lemma whitespace_name_is_kept :
  ∃ c,
    parse_linkedin_csv (λ _, 1767225600000%Z)
      [ "First Name,Last Name" +:+ nl; " ," +:+ nl; "," +:+ nl ] = inr [c] ∧
    firstName c = Some " " ∧ lastName c = Some EmptyString ∧
    nonempty_after_trim (firstName c) = false ∧
    nonempty_after_trim (lastName c) = false.
Proof. eexists. vm_compute. repeat split. Qed.

Lemma find_header_from_found i pre h rest :
  Forall (λ l, is_header_line l = false) pre →
  is_header_line h = true →
  find_header_from i (pre ++ h :: rest) = i + length pre.
Proof.
  intros Hpre Hh. revert i.
  induction Hpre as [|l pre Hl _ IH]; intros i; simpl.
  - rewrite Hh. lia.
  - rewrite Hl, IH. lia.
Qed.

Lemma find_header_from_none i lines :
  Forall (λ l, is_header_line l = false) lines →
  find_header_from i lines = 0.
Proof.
  intros H. revert i. induction H as [|l lines Hl _ IH]; intros i; simpl; [done|].
  by rewrite Hl, IH.
Qed.

(** C8.  A line is a header line when its text, compared without regard
    to case, contains both labels.  With a first header line [h] after
    the lines [pre], the header index is the position of [h], and the
    parse is that of the lines from [h] on: no line of [pre] has a part
    in the result.  With no header line the header index is 0 and the
    parse is that of all the lines. *)
Theorem header_is_first_matching_line :
  (∀ line, is_header_line line = true ↔
           (∃ a b, lower line = a +:+ "first name" +:+ b) ∧
           (∃ a b, lower line = a +:+ "last name" +:+ b)) ∧
  (∀ pre h rest,
      Forall (λ l, is_header_line l = false) pre →
      is_header_line h = true →
      find_header (pre ++ h :: rest) = length pre ∧
      parse_linkedin_csv now (pre ++ h :: rest) = parse_from_header now (h :: rest) ∧
      parse_linkedin_csv now (pre ++ h :: rest) = parse_linkedin_csv now (h :: rest)) ∧
  (∀ lines,
      Forall (λ l, is_header_line l = false) lines →
      find_header lines = 0 ∧
      parse_linkedin_csv now lines = parse_from_header now lines).
Proof.
  split; [|split].
  - intros line. unfold is_header_line.
    by rewrite andb_true_iff, !contains_spec.
  - intros pre h rest Hpre Hh.
    assert (find_header (pre ++ h :: rest) = length pre) as Hi
      by (unfold find_header; by rewrite find_header_from_found).
    assert (find_header (h :: rest) = 0) as H0
      by (unfold find_header; simpl; by rewrite Hh).
    unfold parse_linkedin_csv. rewrite Hi, H0, drop_app_length. done.
  - intros lines H.
    assert (find_header lines = 0) as H0 by by apply find_header_from_none.
    unfold parse_linkedin_csv. by rewrite H0.
Qed.

End Parser.

Lemma parse_keeps_rows_with_a_name_witness :
  ∃ c,
    c ∈ match parse_linkedin_csv (λ _, 1767225600000%Z) last_name_only_lines with
        | inr conns => conns
        | inl _ => []
        end ∧
    firstName c = Some EmptyString ∧ lastName c = Some "Doe".
Proof.
  destruct (proj1 (parse_keeps_rows_with_a_name (λ _, 1767225600000%Z) last_name_only_lines
                     match parse_linkedin_csv (λ _, 1767225600000%Z) last_name_only_lines with
                     | inr conns => conns
                     | inl _ => []
                     end))
    as (rows' & _ & Hrows & _ & _ & Hrow).
  - vm_compute. reflexivity.
  - assert (Hd : (Csv.DictReader (drop (find_header last_name_only_lines)
                                       last_name_only_lines)).1
                 = [Csv.Row [("First Name", Some EmptyString); ("Last Name", Some "Doe")] None;
                    Csv.Row [("First Name", Some EmptyString);
                             ("Last Name", Some EmptyString)] None])
      by (vm_compute; reflexivity).
    rewrite Hd in Hrows.
    apply Forall2_cons_inv_l in Hrows as (r & rest & Hn & _ & ->).
    assert (Hr : r = foldl (λ m kv, <[strip (lower kv.1) := kv.2]> m) ∅
                       [("First Name", Some EmptyString); ("Last Name", Some "Doe")])
      by (unfold normalize_row in Hn; cbn [Csv.surplus Csv.named] in Hn; congruence).
    assert (Hf : row_get r "first name" = Some EmptyString)
      by (rewrite Hr; vm_compute; reflexivity).
    assert (Hl : row_get r "last name" = Some "Doe")
      by (rewrite Hr; vm_compute; reflexivity).
    exists (classify (build_conn 0 1767225600000%Z r)). split.
    + apply (Hrow 0 r eq_refl). exists "Doe". split; [discriminate|]. by right.
    + split; [exact Hf | exact Hl].
Defined.

Lemma header_is_first_matching_line_witness :
  find_header sample_lines = 2 ∧
  parse_linkedin_csv (λ _, 1767225600000%Z) sample_lines
  = parse_from_header (λ _, 1767225600000%Z) (drop 2 sample_lines).
Proof.
  pose proof (proj1 (proj2 (header_is_first_matching_line (λ _, 1767225600000%Z)))
                (take 2 sample_lines) ("First Name,Last Name,Company,Position" +:+ nl)
                (drop 3 sample_lines)) as H.
  destruct H as (H1 & H2 & _).
  - repeat constructor.
  - reflexivity.
  - split; [exact H1 | exact H2].
Defined.

(** ** The query builder *)
Section QueryBuilder.



Lemma batch_attempt_searches env k c w :
  ∃ rest, log (batch_attempt env k c w).2
          = (log w ++ TavilySearch (search_query c) (tavily k) :: rest)%list.
Proof.
  unfold batch_attempt, search_tavily, call, emit, ask, generate_blurb,
    mbind, M_bind, mret, M_ret; simpl.
  destruct (tavily_answer env (log w) (search_query c) (tavily k)) as [e|sr]; simpl.
  - by exists [].
  - match goal with |- context [gemini_answer env ?l ?m ?p ?key] =>
      destruct (gemini_answer env l m p key) as [e|[t|]] end; simpl;
      rewrite <- ?app_assoc; simpl; eauto.
Qed.



End QueryBuilder.

(** ** Reading the state *)
Section GetData.

(** C10.  The answer of the get-current-state route holds the stored
    records and one boolean, which is true exactly when both credentials
    are non-empty; the route changes nothing and sends nothing.  Two
    worlds with the same records whose credentials agree on being both
    non-empty get the same answer, whatever the credentials are. *)
Theorem get_data_hides_credentials w1 w2 :
  stored w1 = stored w2 →
  (tavily (credentials w1) ≠ EmptyString ∧ gemini (credentials w1) ≠ EmptyString ↔
   tavily (credentials w2) ≠ EmptyString ∧ gemini (credentials w2) ≠ EmptyString) →
  (∃ b, get_data w1 = (inr (JData (stored w1) b, 200), w1) ∧
        (b = true ↔ tavily (credentials w1) ≠ EmptyString ∧
                    gemini (credentials w1) ≠ EmptyString)) ∧
  (get_data w1).1 = (get_data w2).1.
Proof.
  intros Hs Hk.
  assert (Hb : ∀ w, nonempty (tavily (credentials w)) && nonempty (gemini (credentials w)) = true
               ↔ tavily (credentials w) ≠ EmptyString ∧ gemini (credentials w) ≠ EmptyString).
  { intros w. rewrite andb_true_iff.
    destruct (tavily (credentials w)), (gemini (credentials w)); simpl;
      split; intros [? ?]; split; congruence. }
  split.
  - eexists. split; [reflexivity | apply Hb].
  - unfold get_data, load_data, mbind, M_bind, mret, M_ret; simpl.
    fold (stored w1) (stored w2) (credentials w1) (credentials w2).
    rewrite Hs. do 3 f_equal.
    apply eq_true_iff_eq. rewrite !Hb. done.
Qed.

Lemma get_data_hides_credentials_witness :
  (get_data (World (Some (MkData [] (ApiKeys "tvly-A" "AIza-A"))) [])).1
  = (get_data (World (Some (MkData [] (ApiKeys "tvly-B" "AIza-B"))) [])).1.
Proof.
  apply (get_data_hides_credentials
           (World (Some (MkData [] (ApiKeys "tvly-A" "AIza-A"))) [])
           (World (Some (MkData [] (ApiKeys "tvly-B" "AIza-B"))) [])).
  - reflexivity.
  - simpl. split; intros _; split; discriminate.
Defined.

End GetData.

(** ** The batch loop *)
Section BatchLoop.

Variable env : outside.
Variable k : api_keys.

Lemma searches_app l1 l2 : searches (l1 ++ l2) = (searches l1 ++ searches l2)%list.
Proof. unfold searches. apply omap_app. Qed.

(** One attempt leaves the data file alone and sends exactly one
    search, for the query of its record. *)
Lemma batch_attempt_world c w :
  file (batch_attempt env k c w).2 = file w ∧
  searches (log (batch_attempt env k c w).2)
  = (searches (log w) ++ [(search_query c, tavily k)])%list.
Proof.
  unfold batch_attempt, search_tavily, call, emit, ask, generate_blurb,
    mbind, M_bind, mret, M_ret; simpl.
  destruct (tavily_answer env (log w) (search_query c) (tavily k)) as [e|sr]; simpl.
  - by rewrite searches_app.
  - match goal with |- context [gemini_answer env ?l ?m ?p ?key] =>
      destruct (gemini_answer env l m p key) as [e|[t|]] end; simpl;
      rewrite ?searches_app; simpl; by rewrite ?app_nil_r.
Qed.

(** One iteration of the loop, in terms of the attempt: a failure adds
    a line to [errors] and changes nothing else; a success stores summary
    and timestamp in the record and counts it. *)
Lemma batch_loop_step i rest cs n errs c w :
  cs !! i = Some c →
  batch_loop env k (i :: rest) cs n errs w
  = match batch_attempt env k c w with
    | (inl e, w1) => batch_loop env k rest cs n (errs ++ [error_line c e])%list w1
    | (inr bt, w1) =>
        batch_loop env k rest (<[i := set_enrichment c bt.1 bt.2]> cs) (S n) errs w1
    end.
Proof.
  intros Hc. simpl. rewrite Hc.
  unfold batch_attempt, try_except, search_tavily, call, emit, ask, generate_blurb,
    mbind, M_bind, mret, M_ret; simpl.
  destruct (tavily_answer env (log w) (search_query c) (tavily k)) as [e|sr]; simpl;
    [done|].
  match goal with |- context [gemini_answer env ?l ?m ?p ?key] =>
    destruct (gemini_answer env l m p key) as [e|[t|]] end; simpl; done.
Qed.

(** Induction along the run of the loop; the loop always returns. *)
Lemma batch_loop_elim
    (P : list nat → list conn → nat → list string → world →
         list conn → nat → list string → world → Prop) :
  (∀ cs n errs w, P [] cs n errs w cs n errs w) →
  (∀ i rest cs n errs w cs' n' errs' w',
      cs !! i = None →
      batch_loop env k rest cs n errs w = (inr (cs', n', errs'), w') →
      P rest cs n errs w cs' n' errs' w' →
      P (i :: rest) cs n errs w cs' n' errs' w') →
  (∀ i rest cs n errs w c e w1 cs' n' errs' w',
      cs !! i = Some c →
      batch_attempt env k c w = (inl e, w1) →
      batch_loop env k rest cs n (errs ++ [error_line c e])%list w1
      = (inr (cs', n', errs'), w') →
      P rest cs n (errs ++ [error_line c e])%list w1 cs' n' errs' w' →
      P (i :: rest) cs n errs w cs' n' errs' w') →
  (∀ i rest cs n errs w c b t w1 cs' n' errs' w',
      cs !! i = Some c →
      batch_attempt env k c w = (inr (b, t), w1) →
      batch_loop env k rest (<[i := set_enrichment c b t]> cs) (S n) errs w1
      = (inr (cs', n', errs'), w') →
      P rest (<[i := set_enrichment c b t]> cs) (S n) errs w1 cs' n' errs' w' →
      P (i :: rest) cs n errs w cs' n' errs' w') →
  ∀ sel cs n errs w,
    ∃ cs' n' errs' w',
      batch_loop env k sel cs n errs w = (inr (cs', n', errs'), w') ∧
      P sel cs n errs w cs' n' errs' w'.
Proof.
  intros Hnil Hskip Hfail Hok sel.
  induction sel as [|i rest IH]; intros cs n errs w.
  - exists cs, n, errs, w. split; [done | apply Hnil].
  - destruct (cs !! i) as [c|] eqn:Hc.
    + rewrite (batch_loop_step _ _ _ _ _ c) by done.
      destruct (batch_attempt env k c w) as [[e|[b t]] w1] eqn:Ha.
      * destruct (IH cs n (errs ++ [error_line c e])%list w1)
          as (cs' & n' & errs' & w' & Hl & HP).
        exists cs', n', errs', w'. split; [done | by eapply Hfail].
      * destruct (IH (<[i := set_enrichment c b t]> cs) (S n) errs w1)
          as (cs' & n' & errs' & w' & Hl & HP).
        exists cs', n', errs', w'. split; [done | by eapply Hok].
    + simpl. rewrite Hc.
      destruct (IH cs n errs w) as (cs' & n' & errs' & w' & Hl & HP).
      exists cs', n', errs', w'. split; [done | by apply Hskip].
Qed.

(** The same, for a run that is given. *)
Lemma batch_loop_inv
    (P : list nat → list conn → nat → list string → world →
         list conn → nat → list string → world → Prop) :
  (∀ cs n errs w, P [] cs n errs w cs n errs w) →
  (∀ i rest cs n errs w cs' n' errs' w',
      cs !! i = None →
      batch_loop env k rest cs n errs w = (inr (cs', n', errs'), w') →
      P rest cs n errs w cs' n' errs' w' →
      P (i :: rest) cs n errs w cs' n' errs' w') →
  (∀ i rest cs n errs w c e w1 cs' n' errs' w',
      cs !! i = Some c →
      batch_attempt env k c w = (inl e, w1) →
      batch_loop env k rest cs n (errs ++ [error_line c e])%list w1
      = (inr (cs', n', errs'), w') →
      P rest cs n (errs ++ [error_line c e])%list w1 cs' n' errs' w' →
      P (i :: rest) cs n errs w cs' n' errs' w') →
  (∀ i rest cs n errs w c b t w1 cs' n' errs' w',
      cs !! i = Some c →
      batch_attempt env k c w = (inr (b, t), w1) →
      batch_loop env k rest (<[i := set_enrichment c b t]> cs) (S n) errs w1
      = (inr (cs', n', errs'), w') →
      P rest (<[i := set_enrichment c b t]> cs) (S n) errs w1 cs' n' errs' w' →
      P (i :: rest) cs n errs w cs' n' errs' w') →
  ∀ sel cs n errs w cs' n' errs' w',
    batch_loop env k sel cs n errs w = (inr (cs', n', errs'), w') →
    P sel cs n errs w cs' n' errs' w'.
Proof.
  intros Hnil Hskip Hfail Hok sel cs n errs w cs' n' errs' w' Hrun.
  destruct (batch_loop_elim P Hnil Hskip Hfail Hok sel cs n errs w)
    as (cs2 & n2 & errs2 & w2 & Hrun2 & HP).
  rewrite Hrun in Hrun2. by injection Hrun2 as <- <- <- <-.
Qed.

Lemma batch_loop_total sel cs n errs w :
  ∃ cs' n' errs' w', batch_loop env k sel cs n errs w = (inr (cs', n', errs'), w').
Proof.
  destruct (batch_loop_elim (λ _ _ _ _ _ _ _ _ _, True)) with
    (sel := sel) (cs := cs) (n := n) (errs := errs) (w := w)
    as (cs' & n' & errs' & w' & H & _); eauto 10.
Qed.

Lemma set_enrichment_twice c b t b' t' :
  set_enrichment (set_enrichment c b t) b' t' = set_enrichment c b' t'.
Proof. done. Qed.

Lemma search_query_set_enrichment c b t :
  search_query (set_enrichment c b t) = search_query c.
Proof. done. Qed.

Lemma search_of_insert cs i c b t j :
  cs !! i = Some c →
  search_of k (<[i := set_enrichment c b t]> cs) j = search_of k cs j.
Proof.
  intros Hc. unfold search_of. destruct (decide (i = j)) as [->|Hne].
  - rewrite list_lookup_insert_eq by (by eapply lookup_lt_Some). by rewrite Hc.
  - by rewrite list_lookup_insert_ne.
Qed.

Lemma omap_search_cons_None cs i rest :
  cs !! i = None →
  omap (search_of k cs) (i :: rest) = omap (search_of k cs) rest.
Proof. intros H. simpl. unfold search_of at 1. by rewrite H. Qed.

Lemma omap_search_cons_Some cs i c rest :
  cs !! i = Some c →
  omap (search_of k cs) (i :: rest)
  = (search_query c, tavily k) :: omap (search_of k cs) rest.
Proof. intros H. simpl. unfold search_of at 1. by rewrite H. Qed.

(** What a run of the loop leaves alone and what it adds. *)
Lemma batch_loop_frame sel cs n errs w cs' n' errs' w' :
  batch_loop env k sel cs n errs w = (inr (cs', n', errs'), w') →
  length cs' = length cs ∧
  file w' = file w ∧
  (∀ j, j ∉ sel → cs' !! j = cs !! j) ∧
  (∀ j c, cs !! j = Some c →
     cs' !! j = Some c ∨ ∃ b t, cs' !! j = Some (set_enrichment c b t)) ∧
  (∃ new, errs' = (errs ++ new)%list) ∧
  (Forall (λ i, i < length cs) sel →
     n' + length errs' = n + length errs + length sel) ∧
  searches (log w') = (searches (log w) ++ omap (search_of k cs) sel)%list.
Proof.
  revert sel cs n errs w cs' n' errs' w'. apply batch_loop_inv.
  - intros cs n errs w. split_and!; try done.
    + auto.
    + exists []. by rewrite app_nil_r.
    + simpl. by rewrite app_nil_r.
  - intros i rest cs n errs w cs' n' errs' w' Hc _ (Hlen & Hf & Hout & Hin & Herr & Hcnt & Hs).
    split_and!; try done.
    + intros j Hj. apply Hout. by apply not_elem_of_cons in Hj as [_ ?].
    + intros Hall. apply Forall_cons in Hall as [Hi _].
      apply lookup_ge_None in Hc. lia.
    + by rewrite omap_search_cons_None.
  - intros i rest cs n errs w c e w1 cs' n' errs' w' Hc Ha _
      (Hlen & Hf & Hout & Hin & Herr & Hcnt & Hs).
    pose proof (batch_attempt_world c w) as [Hfa Hsa]. rewrite Ha in Hfa, Hsa.
    simpl in Hfa, Hsa. split_and!; try done.
    + congruence.
    + intros j Hj. apply Hout. by apply not_elem_of_cons in Hj as [_ ?].
    + destruct Herr as [new ->]. exists (error_line c e :: new).
      by rewrite <- app_assoc.
    + intros Hall. apply Forall_cons in Hall as [_ Hall].
      specialize (Hcnt Hall). rewrite length_app in Hcnt. simpl in *. lia.
    + by rewrite Hs, Hsa, <- app_assoc, (omap_search_cons_Some _ _ c).
  - intros i rest cs n errs w c b t w1 cs' n' errs' w' Hc Ha _
      (Hlen & Hf & Hout & Hin & Herr & Hcnt & Hs).
    pose proof (batch_attempt_world c w) as [Hfa Hsa]. rewrite Ha in Hfa, Hsa.
    simpl in Hfa, Hsa. rewrite length_insert in Hlen, Hcnt.
    assert (Hi : i < length cs) by by eapply lookup_lt_Some.
    split_and!; try done.
    + congruence.
    + intros j Hj. apply not_elem_of_cons in Hj as [Hji Hj].
      rewrite Hout by done. by apply list_lookup_insert_ne.
    + intros j c0 Hj. destruct (decide (i = j)) as [->|Hne].
      * assert (c0 = c) as -> by congruence.
        destruct (Hin j (set_enrichment c b t)) as [H | (b' & t' & H)].
        { by apply list_lookup_insert_eq. }
        { right. eauto. }
        { right. exists b', t'. by rewrite H, set_enrichment_twice. }
      * apply Hin. by rewrite list_lookup_insert_ne.
    + intros Hall. apply Forall_cons in Hall as [_ Hall].
      specialize (Hcnt Hall). simpl. lia.
    + rewrite Hs, Hsa, <- app_assoc, (omap_search_cons_Some _ _ c) by done.
      simpl. do 2 f_equal. apply list_omap_ext, Forall2_same_length_lookup.
      split; [done|]. intros j x y Hx Hy.
      assert (x = y) as -> by congruence. by apply search_of_insert.
Qed.

End BatchLoop.

(** ** The selection of the batch route *)
Section Selection.

Lemma filter_ext_elem (P Q : nat → Prop)
    `{!∀ j, Decision (P j)} `{!∀ j, Decision (Q j)} (l : list nat) :
  (∀ j, j ∈ l → (P j ↔ Q j)) → filter P l = filter Q l.
Proof.
  induction l as [|x l IH]; intros Hext; [done|].
  rewrite !filter_cons.
  assert (filter P l = filter Q l) as -> by (apply IH; intros j Hj; apply Hext; by right).
  destruct (decide (P x)) as [HP|HP].
  - rewrite decide_True; [done|]. apply Hext; [by left | done].
  - rewrite decide_False; [done|]. intros HQ. apply HP, Hext; [by left | done].
Qed.

Lemma elem_of_take_elem {A} (x : A) n l : x ∈ take n l → x ∈ l.
Proof. intros Hx. eapply elem_of_sublist; [done | apply sublist_take]. Qed.

Lemma length_unenriched_from o cs :
  length (unenriched_from o cs) = length (filter (λ c, has_summary c = false) cs).
Proof.
  revert o. induction cs as [|c cs IH]; intros o; simpl; [done|].
  unfold has_summary at 1. destruct (truthy (blurb c)) eqn:Hb.
  - rewrite filter_cons_False by (unfold has_summary; congruence). apply IH.
  - rewrite filter_cons_True by done. simpl. by rewrite IH.
Qed.

Lemma unenriched_from_filter o cs :
  unenriched_from o cs
  = filter (λ j, lacks_summary cs (j - o) = true) (seq o (length cs)).
Proof.
  revert o. induction cs as [|c cs IH]; intros o; [done|].
  assert (Htail : filter (λ j, lacks_summary (c :: cs) (j - o) = true) (seq (S o) (length cs))
                  = filter (λ j, lacks_summary cs (j - S o) = true) (seq (S o) (length cs))).
  { apply filter_ext_elem. intros j Hj.
    apply elem_of_seq in Hj as [Hj _].
    replace (j - o) with (S (j - S o)) by lia. done. }
  cbn [unenriched_from length seq].
  destruct (truthy (blurb c)) eqn:Hb.
  - rewrite filter_cons_False.
    + by rewrite Htail, <- IH.
    + rewrite Nat.sub_diag. unfold lacks_summary, has_summary. simpl. by rewrite Hb.
  - rewrite filter_cons_True.
    + by rewrite Htail, <- IH.
    + rewrite Nat.sub_diag. unfold lacks_summary, has_summary. simpl. by rewrite Hb.
Qed.

(** The records without a summary, by position, in the order of the
    list. *)
Lemma unenriched_from_0 cs :
  unenriched_from 0 cs = filter (λ j, lacks_summary cs j = true) (seq 0 (length cs)).
Proof.
  rewrite unenriched_from_filter. apply list_filter_iff. intros j.
  by rewrite Nat.sub_0_r.
Qed.

Lemma lacks_summary_spec cs j :
  lacks_summary cs j = true ↔ ∃ c, cs !! j = Some c ∧ has_summary c = false.
Proof.
  unfold lacks_summary. destruct (cs !! j) as [c|]; split.
  - intros H. exists c. split; [done|]. by apply negb_true_iff.
  - intros (c' & [= <-] & H). by apply negb_true_iff.
  - done.
  - by intros (c' & ? & _).
Qed.

Lemma elem_of_unenriched_from cs j :
  j ∈ unenriched_from 0 cs ↔ lacks_summary cs j = true.
Proof.
  rewrite unenriched_from_0, list_elem_of_filter, elem_of_seq. split; [by intros [? _]|].
  intros H. split; [done|]. apply lacks_summary_spec in H as (c & Hc & _).
  apply lookup_lt_Some in Hc. lia.
Qed.

Lemma NoDup_unenriched_from cs : NoDup (unenriched_from 0 cs).
Proof. rewrite unenriched_from_0. apply NoDup_filter, NoDup_seq. Qed.

Lemma elem_of_unenriched cs j :
  j ∈ unenriched cs → ∃ c, cs !! j = Some c ∧ has_summary c = false.
Proof.
  intros H. apply lacks_summary_spec, elem_of_unenriched_from.
  unfold unenriched in H. by eapply elem_of_take_elem.
Qed.

Lemma NoDup_unenriched cs : NoDup (unenriched cs).
Proof.
  eapply sublist_NoDup; [apply NoDup_unenriched_from | apply sublist_take].
Qed.

Lemma unenriched_valid cs : Forall (λ i, i < length cs) (unenriched cs).
Proof.
  apply Forall_forall. intros j (c & Hc & _)%elem_of_unenriched.
  by eapply lookup_lt_Some.
Qed.

(** Storing a record at a position without a summary lowers the number
    of records without a summary by one when the new record has one. *)
Lemma remaining_insert cs i c c1 :
  cs !! i = Some c →
  has_summary c = false →
  length (unenriched_from 0 (<[i := c1]> cs)) + (if has_summary c1 then 1 else 0)
  = length (unenriched_from 0 cs).
Proof.
  intros Hc Hn. rewrite !length_unenriched_from.
  rewrite insert_take_drop by (by eapply lookup_lt_Some).
  rewrite <- (take_drop_middle cs i c) at 3 by done.
  rewrite !filter_app, !length_app.
  rewrite (filter_cons_True _ c) by done.
  destruct (has_summary c1) eqn:H1.
  - rewrite filter_cons_False by congruence. simpl. lia.
  - rewrite filter_cons_True by done. simpl. lia.
Qed.

(** Position [i] is among the first [n] elements of a filtered range
    exactly when fewer than [n] elements before [i] pass the filter. *)
Lemma elem_of_take_filter_seq (P : nat → Prop) `{!∀ j, Decision (P j)} n m i :
  i ∈ take n (filter P (seq 0 m)) ↔
  i < m ∧ P i ∧ length (filter P (seq 0 i)) < n.
Proof.
  split.
  - intros Hi.
    assert (Hin : i ∈ filter P (seq 0 m)) by by eapply elem_of_take_elem.
    apply list_elem_of_filter in Hin as [HP Hm]. apply elem_of_seq in Hm as [_ Hm].
    simpl in Hm. split; [done|]. split; [done|].
    replace m with (i + S (m - S i)) in Hi by lia.
    rewrite seq_app, filter_app in Hi. simpl in Hi.
    rewrite filter_cons_True in Hi by done.
    destruct (decide (length (filter P (seq 0 i)) < n)) as [|Hge]; [done|].
    rewrite take_app_le in Hi by lia.
    apply elem_of_take_elem in Hi. apply list_elem_of_filter in Hi as [_ Hi].
    apply elem_of_seq in Hi. lia.
  - intros (Hm & HP & Hlt).
    replace m with (i + S (m - S i)) by lia.
    rewrite seq_app, filter_app. simpl. rewrite filter_cons_True by done.
    rewrite take_app_ge by lia.
    apply elem_of_app. right.
    destruct (n - length (filter P (seq 0 i))) as [|n'] eqn:Hn; [lia|].
    simpl. by left.
Qed.

Lemma length_filter_mono (P Q : nat → Prop)
    `{!∀ j, Decision (P j)} `{!∀ j, Decision (Q j)} (l : list nat) :
  (∀ j, P j → Q j) → (length (filter P l) ≤ length (filter Q l))%nat.
Proof.
  intros HPQ. induction l as [|x l IH]; [done|].
  rewrite !filter_cons. destruct (decide (P x)) as [HP|HP].
  - rewrite decide_True by auto. simpl. lia.
  - destruct (decide (Q x)); simpl; lia.
Qed.

(** A record that was selected and still has no summary is selected
    again, as long as no record has lost its summary. *)
Lemma unenriched_again cs cs' i :
  length cs' = length cs →
  (∀ j, lacks_summary cs' j = true → lacks_summary cs j = true) →
  i ∈ unenriched cs →
  lacks_summary cs' i = true →
  i ∈ unenriched cs'.
Proof.
  unfold unenriched. rewrite !unenriched_from_0.
  intros Hlen Hmono Hi Hl.
  apply elem_of_take_filter_seq in Hi as (Hm & _ & Hlt).
  apply elem_of_take_filter_seq. rewrite Hlen. split; [done|]. split; [done|].
  eapply Nat.le_lt_trans; [|exact Hlt].
  by apply length_filter_mono.
Qed.

End Selection.

(** ** The routes *)
Section Routes.

Variable env : outside.

Lemma keys_missing_spec k :
  keys_missing k = true ↔ tavily k = EmptyString ∨ gemini k = EmptyString.
Proof.
  unfold keys_missing. rewrite orb_true_iff, !negb_true_iff.
  by destruct (tavily k), (gemini k); simpl; split; (intros [?|?]; [left|right]).
Qed.

Lemma enrich_batch_missing w :
  keys_missing (credentials w) = true →
  enrich_batch env w = (inr (JError "API keys not configured", 400), w).
Proof.
  intros Hk. unfold enrich_batch, load_data, mbind, M_bind, mret, M_ret; simpl.
  fold (credentials w). by rewrite Hk.
Qed.

Lemma enrich_batch_none w :
  keys_missing (credentials w) = false →
  unenriched (stored w) = [] →
  enrich_batch env w = (inr (JBatchNone 0 0, 200), w).
Proof.
  intros Hk Hu. unfold enrich_batch, load_data, mbind, M_bind, mret, M_ret; simpl.
  fold (credentials w) (stored w). by rewrite Hk, Hu.
Qed.

Lemma enrich_batch_run w cs' n' errs' w' :
  keys_missing (credentials w) = false →
  unenriched (stored w) ≠ [] →
  batch_loop env (credentials w) (unenriched (stored w)) (stored w) 0 [] w
  = (inr (cs', n', errs'), w') →
  enrich_batch env w
  = (inr (JBatch n' (length (unenriched_from 0 cs')) errs', 200),
     World (Some (MkData cs' (credentials w))) (log w')).
Proof.
  intros Hk Hu Hrun. unfold enrich_batch, load_data, save_data, mbind, M_bind, mret, M_ret.
  cbn -[batch_loop unenriched keys_missing unenriched_from].
  fold (credentials w) (stored w). rewrite Hk.
  destruct (unenriched (stored w)) as [|i sel] eqn:Hsel; [done|].
  by rewrite Hrun.
Qed.

Lemma unenriched_from_all_summarised o cs :
  Forall (λ c, has_summary c = true) cs → unenriched_from o cs = [].
Proof.
  intros H. revert o. induction H as [|c cs Hc _ IH]; intros o; simpl; [done|].
  unfold has_summary in Hc. by rewrite Hc.
Qed.

(** C7, as the code has it.  A credential is missing when it is the
    empty string.  With either credential missing, enrich-one and
    enrich-batch answer with the configuration error and leave the world
    as it is: no call is sent and no record changes.  With the generation
    credential missing, the query route answers with the configuration
    error, and sends nothing, when the question is not blank; a blank
    question is refused first, with the no-query error, whatever the
    credential. *)
Theorem missing_credentials_fail_first w :
  (keys_missing (credentials w) = true ↔
   tavily (credentials w) = EmptyString ∨ gemini (credentials w) = EmptyString) ∧
  (keys_missing (credentials w) = true →
   (∀ conn_id, enrich_connection env conn_id w
               = (inr (JError "API keys not configured", 400), w)) ∧
   enrich_batch env w = (inr (JError "API keys not configured", 400), w)) ∧
  (gemini (credentials w) = EmptyString →
   ∀ query, strip query ≠ EmptyString →
     chat env query w = (inr (JError "Gemini API key not configured", 400), w)) ∧
  (∀ query, strip query = EmptyString →
     chat env query w = (inr (JError "No query provided", 400), w)).
Proof.
  split_and!.
  - apply keys_missing_spec.
  - intros Hk. split; [|by apply enrich_batch_missing].
    intros conn_id. unfold enrich_connection, load_data, mbind, M_bind, mret, M_ret; simpl.
    fold (credentials w). by rewrite Hk.
  - intros Hg query Hq. unfold chat.
    destruct (strip query) eqn:Hs; [done|]. simpl.
    unfold load_data, mbind, M_bind, mret, M_ret; simpl.
    fold (credentials w). by rewrite Hg.
  - intros query Hq. unfold chat. by rewrite Hq.
Qed.

(** C4, as the code has it.  With both credentials present and every
    record holding a summary (a non-empty blurb), the batch route answers
    enriched 0 and remaining 0, with no error list in the answer, and
    leaves the world as it is: no call is sent. *)
Theorem batch_on_enriched_set_is_noop w :
  keys_missing (credentials w) = false →
  Forall (λ c, has_summary c = true) (stored w) →
  enrich_batch env w = (inr (JBatchNone 0 0, 200), w).
Proof.
  intros Hk Hall. apply enrich_batch_none; [done|].
  unfold unenriched. by rewrite unenriched_from_all_summarised.
Qed.


End Routes.

Lemma missing_credentials_fail_first_witness :
  enrich_batch sample_outside
    (World (Some (MkData [sample_conn "conn_0_1" "Ann" "Lee" "Engineer" None None]
                         (ApiKeys "tvly-key" EmptyString))) [])
  = (inr (JError "API keys not configured", 400),
     World (Some (MkData [sample_conn "conn_0_1" "Ann" "Lee" "Engineer" None None]
                         (ApiKeys "tvly-key" EmptyString))) []).
Proof.
  apply (proj1 (proj2 (missing_credentials_fail_first sample_outside _))).
  reflexivity.
Defined.

(** With no generation credential and an empty question, the query route
    answers with the no-query error, not with the configuration error. *)
Lemma chat_blank_question_without_key :
  gemini (credentials initial_world) = EmptyString ∧
  (chat sample_outside EmptyString initial_world).1
  = inr (JError "No query provided", 400) ∧
  (chat sample_outside EmptyString initial_world).1
  ≠ inr (JError "Gemini API key not configured", 400).
Proof. by split_and!. Qed.

Lemma batch_on_enriched_set_is_noop_witness :
  enrich_batch sample_outside
    (World (Some (MkData [sample_conn "conn_0_1" "Ann" "Lee" "Engineer"
                            (Some "Works at Acme.") (Some "2026-01-01T00:00:00Z")]
                         (ApiKeys "tvly-key" "AIza-key"))) [])
  = (inr (JBatchNone 0 0, 200),
     World (Some (MkData [sample_conn "conn_0_1" "Ann" "Lee" "Engineer"
                            (Some "Works at Acme.") (Some "2026-01-01T00:00:00Z")]
                         (ApiKeys "tvly-key" "AIza-key"))) []).
Proof.
  apply (batch_on_enriched_set_is_noop sample_outside).
  - reflexivity.
  - by repeat constructor.
Defined.

(** Every record holds a summary and the credentials have been cleared:
    the batch route answers with the configuration error, not with
    enriched 0 and remaining 0. *)
Lemma batch_on_enriched_set_without_keys :
  ∃ w,
    Forall (λ c, has_summary c = true) (stored w) ∧
    (enrich_batch sample_outside w).1 = inr (JError "API keys not configured", 400) ∧
    (enrich_batch sample_outside w).1 ≠ inr (JBatchNone 0 0, 200) ∧
    ∀ errors, (enrich_batch sample_outside w).1 ≠ inr (JBatch 0 0 errors, 200).
Proof.
  exists (World (Some (MkData [sample_conn "conn_0_1" "Ann" "Lee" "Engineer"
                                 (Some "Works at Acme.") (Some "2026-01-01T00:00:00Z")]
                              (ApiKeys EmptyString EmptyString))) []).
  split_and!; [by repeat constructor | done | done | done].
Qed.



(** ** The query that the routes send *)
Section QuerySent.



End QuerySent.



(** The record of a row that ends after the first name: last name,
    company and position are [None], and the query names [None]. *)
Lemma short_row_query_names_none :
  ∃ c,
    parse_linkedin_csv (λ _, 1767225600000%Z) short_row_lines = inr [c] ∧
    firstName c = Some "Jane" ∧ lastName c = None ∧
    position c = None ∧ company c = None ∧
    search_query c = "Jane None".
Proof. eexists. vm_compute. split_and!; reflexivity. Qed.

(** ** Summary and timestamp go together *)
Section Pairing.

Variable env : outside.

Lemma paired_set_enrichment c b t : paired (set_enrichment c b t).
Proof. unfold paired. simpl. split; intros ?; discriminate. Qed.

Lemma paired_insert cs i c b t :
  Forall paired cs → Forall paired (<[i := set_enrichment c b t]> cs).
Proof. intros H. apply Forall_insert; [done | apply paired_set_enrichment]. Qed.

Lemma parse_rows_paired now rows i acc cs :
  Forall paired acc →
  parse_rows now i rows acc = inr cs →
  Forall paired cs.
Proof.
  intros Hacc (rows' & _ & ->)%parse_rows_spec.
  apply Forall_app. split; [done|].
  apply Forall_fmap, Forall_forall. intros c Hc.
  apply list_elem_of_filter in Hc as [_ Hc].
  apply elem_of_lookup_imap in Hc as (j & r & -> & _).
  unfold compose, paired, classify. simpl. tauto.
Qed.

Lemma parse_linkedin_csv_paired now lines cs :
  parse_linkedin_csv now lines = inr cs → Forall paired cs.
Proof.
  unfold parse_linkedin_csv, parse_from_header.
  destruct (Csv.DictReader (drop (find_header lines) lines)) as [rows e].
  destruct (parse_rows now 0 rows []) as [e'|cs'] eqn:Hp; [done|].
  destruct e; [done|]. intros [= <-].
  eapply parse_rows_paired; [|done]. constructor.
Qed.

Lemma upload_csv_paired u w :
  Forall paired (stored w) → Forall paired (stored (upload_csv env u w).2).
Proof.
  intros Hw. unfold upload_csv. destruct u as [[filename lines]|]; [|done].
  destruct (endswith ".csv" filename); simpl; [|done].
  unfold ask, mbind, M_bind, raise; simpl.
  destruct (parse_linkedin_csv (time_ms env (log w)) lines) as [e|cs] eqn:Hp; [done|].
  destruct cs as [|c cs]; [done|]. simpl.
  by apply parse_linkedin_csv_paired in Hp.
Qed.

Lemma search_tavily_file query key w :
  file (search_tavily env query key w).2 = file w.
Proof. done. Qed.

Lemma generate_blurb_file sr name key w :
  file (generate_blurb env sr name key w).2 = file w.
Proof.
  unfold generate_blurb, call, mbind, M_bind, mret, M_ret; simpl.
  match goal with |- context [gemini_answer env ?l ?m ?p ?k] =>
    destruct (gemini_answer env l m p k) as [e|[t|]] end; done.
Qed.

Lemma chat_with_network_file query cs key w :
  file (chat_with_network env query cs key w).2 = file w.
Proof.
  unfold chat_with_network, call, mbind, M_bind, mret, M_ret; simpl.
  match goal with |- context [gemini_answer env ?l ?m ?p ?k] =>
    destruct (gemini_answer env l m p k) as [e|[t|]] end; done.
Qed.

Lemma stored_same_file w w' : file w' = file w → stored w' = stored w.
Proof. unfold stored. by intros ->. Qed.

Lemma enrich_connection_paired conn_id w :
  Forall paired (stored w) → Forall paired (stored (enrich_connection env conn_id w).2).
Proof.
  intros Hw. unfold enrich_connection, load_data, mbind, M_bind, mret, M_ret.
  cbn -[keys_missing list_find search_tavily generate_blurb search_query person_name].
  fold (credentials w) (stored w).
  destruct (keys_missing (credentials w)); [done|].
  destruct (list_find _ (stored w)) as [[i c]|]; [|done].
  unfold try_except.
  pose proof (search_tavily_file (search_query c) (tavily (credentials w)) w) as Hf1.
  destruct (search_tavily env (search_query c) (tavily (credentials w)) w)
    as [[e|sr] w1]; simpl in Hf1.
  { simpl. by rewrite (stored_same_file w w1). }
  pose proof (generate_blurb_file sr (person_name c) (gemini (credentials w)) w1) as Hf2.
  destruct (generate_blurb env sr (person_name c) (gemini (credentials w)) w1)
    as [[e|b] w2]; simpl in Hf2.
  { simpl. rewrite (stored_same_file w w2); [done | congruence]. }
  unfold ask, save_data. simpl. unfold stored at 1. simpl. by apply paired_insert.
Qed.

Lemma enrich_batch_paired w :
  Forall paired (stored w) → Forall paired (stored (enrich_batch env w).2).
Proof.
  intros Hw.
  destruct (keys_missing (credentials w)) eqn:Hk.
  { by rewrite enrich_batch_missing. }
  destruct (decide (unenriched (stored w) = [])) as [Hu|Hu].
  { by rewrite enrich_batch_none. }
  destruct (batch_loop_total env (credentials w) (unenriched (stored w)) (stored w) 0 [] w)
    as (cs' & n' & errs' & w' & Hrun).
  rewrite (enrich_batch_run _ _ _ _ _ _ Hk Hu Hrun). unfold stored at 1. simpl.
  apply batch_loop_frame in Hrun as (Hlen & _ & _ & Hin & _).
  apply Forall_lookup. intros j c' Hc'.
  destruct (stored w !! j) as [c|] eqn:Hc.
  - rewrite Forall_lookup in Hw. specialize (Hw j c Hc).
    destruct (Hin j c Hc) as [H | (b & t & H)]; rewrite H in Hc'.
    + by injection Hc' as <-.
    + injection Hc' as <-. apply paired_set_enrichment.
  - apply lookup_ge_None in Hc. apply lookup_lt_Some in Hc'. lia.
Qed.

Lemma handle_paired r w :
  Forall paired (stored w) → Forall paired (stored (handle env r w).2).
Proof.
  intros Hw. destruct r; simpl.
  - done.
  - done.
  - by apply upload_csv_paired.
  - by apply enrich_connection_paired.
  - by apply enrich_batch_paired.
  - rewrite (stored_same_file w); [done|]. unfold chat.
    destruct (strip query); [done|]. simpl.
    unfold load_data, mbind, M_bind, mret, M_ret.
    cbn -[chat_with_network]. fold (credentials w) (stored w).
    destruct (gemini (credentials w)); [done|]. simpl. unfold try_except.
    pose proof (chat_with_network_file query (stored w) (String a0 s0) w) as Hf.
    destruct (chat_with_network env query (stored w) (String a0 s0) w)
      as [[e|t] w1]; simpl in *; done.
  - constructor.
Qed.

Lemma serve_paired rs w :
  Forall paired (stored w) → Forall paired (stored (serve env rs w)).
Proof.
  revert w. induction rs as [|r rs IH]; intros w Hw; [done|].
  simpl. apply IH. by apply handle_paired.
Qed.

(** C2.  A record's summary and timestamp are set when they are not
    [None].  In every world the routes reach from the start, and from any
    world where it holds, every stored record has both set or neither:
    the parser leaves both at [None], and the two enrichment routes set
    both in one step.  (A summary can be the empty string; the record then
    has both set and still counts as not enriched.) *)
Theorem summary_and_timestamp_paired rs :
  Forall paired (stored (serve env rs initial_world)) ∧
  (∀ w, Forall paired (stored w) → Forall paired (stored (serve env rs w))) ∧
  (∀ c, paired c ↔
        (blurb c = None ∧ enrichedAt c = None) ∨
        (∃ b t, blurb c = Some b ∧ enrichedAt c = Some t)).
Proof.
  split_and!.
  - apply serve_paired. constructor.
  - intros w. apply serve_paired.
  - intros c. unfold paired.
    destruct (blurb c) as [b|], (enrichedAt c) as [t|]; split; intros H;
      first [ by right; eauto
            | by left
            | by destruct H as [[? ?] | (? & ? & ? & ?)]
            | by split
            | destruct H as [H1 H2];
              first [ discriminate (H1 eq_refl) | discriminate (H2 eq_refl) ] ].
Qed.

End Pairing.

Lemma summary_and_timestamp_paired_witness :
  Forall paired
    (stored (serve sample_outside
       [UploadCsv (Some ("Connections.csv", sample_lines)); SaveKeys "tvly-key" "AIza-key";
        EnrichBatch; EnrichConnection (Some "conn_0_1767225600000")]
       (World (Some (MkData [sample_conn "conn_9_1" "Ann" "Lee" "Engineer" None None]
                            (ApiKeys EmptyString EmptyString))) []))).
Proof.
  apply (proj1 (proj2 (summary_and_timestamp_paired sample_outside _))).
  repeat constructor; done.
Defined.

(** ** Failures inside a batch *)
Section Isolation.

Variable env : outside.
Variable k : api_keys.

(** A run over [l1 ++ l2] is a run over [l1] followed by a run over
    [l2]. *)
Lemma batch_loop_app l2 l1 cs n errs w cs1 n1 errs1 w1 :
  batch_loop env k l1 cs n errs w = (inr (cs1, n1, errs1), w1) →
  batch_loop env k (l1 ++ l2) cs n errs w = batch_loop env k l2 cs1 n1 errs1 w1.
Proof.
  revert l1 cs n errs w cs1 n1 errs1 w1.
  apply (batch_loop_inv env k
    (λ l1 cs n errs w cs1 n1 errs1 w1,
       batch_loop env k (l1 ++ l2) cs n errs w = batch_loop env k l2 cs1 n1 errs1 w1)).
  - done.
  - intros i rest cs n errs w cs' n' errs' w' Hc _ IH.
    rewrite <- app_comm_cons. cbn [batch_loop]. by rewrite Hc.
  - intros i rest cs n errs w c e w1 cs' n' errs' w' Hc Ha _ IH.
    rewrite <- app_comm_cons, (batch_loop_step _ _ _ _ _ _ _ c) by done.
    by rewrite Ha.
  - intros i rest cs n errs w c b t w1 cs' n' errs' w' Hc Ha _ IH.
    rewrite <- app_comm_cons, (batch_loop_step _ _ _ _ _ _ _ c) by done.
    by rewrite Ha.
Qed.

(** The number of records without a summary goes down by the number of
    selected records that hold one after the run, and no more records than
    were counted as enriched hold one. *)
Lemma batch_loop_remaining sel cs n errs w cs' n' errs' w' :
  batch_loop env k sel cs n errs w = (inr (cs', n', errs'), w') →
  NoDup sel →
  (∀ j, j ∈ sel → lacks_summary cs j = true) →
  length (unenriched_from 0 cs')
  + length (filter (λ j, lacks_summary cs' j = false) sel)
  = length (unenriched_from 0 cs) ∧
  (n + length (filter (λ j, lacks_summary cs' j = false) sel) ≤ n')%nat.
Proof.
  revert sel cs n errs w cs' n' errs' w'.
  apply (batch_loop_inv env k
    (λ sel cs n errs w cs' n' errs' w',
       NoDup sel → (∀ j, j ∈ sel → lacks_summary cs j = true) →
       length (unenriched_from 0 cs')
       + length (filter (λ j, lacks_summary cs' j = false) sel)
       = length (unenriched_from 0 cs) ∧
       (n + length (filter (λ j, lacks_summary cs' j = false) sel) ≤ n')%nat)).
  - intros cs n errs w _ _. simpl. split; lia.
  - intros i rest cs n errs w cs' n' errs' w' Hc _ _ _ Hl.
    specialize (Hl i (list_elem_of_here _ _)).
    unfold lacks_summary in Hl. by rewrite Hc in Hl.
  - intros i rest cs n errs w c e w1 cs' n' errs' w' Hc _ Hrun IH Hnd Hl.
    apply NoDup_cons in Hnd as [Hi Hnd].
    destruct IH as [IH1 IH2]; [done | intros j Hj; apply Hl; by right |].
    apply batch_loop_frame in Hrun as (_ & _ & Hout & _).
    assert (Hli : lacks_summary cs' i = true).
    { unfold lacks_summary. rewrite (Hout i Hi). apply (Hl i). by left. }
    rewrite filter_cons_False by congruence. done.
  - intros i rest cs n errs w c b t w1 cs' n' errs' w' Hc _ Hrun IH Hnd Hl.
    apply NoDup_cons in Hnd as [Hi Hnd].
    assert (Hci : has_summary c = false).
    { specialize (Hl i (list_elem_of_here _ _)). unfold lacks_summary in Hl.
      rewrite Hc in Hl. by apply negb_true_iff. }
    destruct IH as [IH1 IH2]; [done | |].
    { intros j Hj. unfold lacks_summary.
      rewrite list_lookup_insert_ne by (intros ->; done).
      apply Hl. by right. }
    apply batch_loop_frame in Hrun as (_ & _ & Hout & _).
    pose proof (remaining_insert cs i c (set_enrichment c b t) Hc Hci) as Hrem.
    assert (Hi' : cs' !! i = Some (set_enrichment c b t)).
    { rewrite (Hout i Hi). apply list_lookup_insert_eq. by eapply lookup_lt_Some. }
    assert (Hli : lacks_summary cs' i = negb (has_summary (set_enrichment c b t)))
      by (unfold lacks_summary; by rewrite Hi').
    destruct (has_summary (set_enrichment c b t)); simpl in Hli, Hrem.
    + rewrite filter_cons_True by done. simpl. split; lia.
    + rewrite filter_cons_False by congruence. split; lia.
Qed.

End Isolation.

Section BatchFailure.

Variable env : outside.

Lemma lacks_summary_mono w cs' :
  length cs' = length (stored w) →
  (∀ j, j ∉ unenriched (stored w) → cs' !! j = stored w !! j) →
  ∀ j, lacks_summary cs' j = true → lacks_summary (stored w) j = true.
Proof.
  intros Hlen Hout j Hj.
  destruct (decide (j ∈ unenriched (stored w))) as [Hin|Hnin].
  - by apply lacks_summary_spec, elem_of_unenriched.
  - unfold lacks_summary in *. by rewrite <- (Hout j Hnin).
Qed.

(** C3, as the code has it.  The batch call has both credentials and
    selects [before], then the record [c] at position [i], then [after].
    When the calls for [c] raise [e], at the point the loop reaches it,
    the call still answers: the line of [c], its name and the text of
    [e], is in the error list; [c] is stored unchanged, holds no summary
    and is selected by the next call; one search has been sent for every
    selected record, in order, also for those after [c]; every selected
    record is counted as enriched or has a line in the error list; and the
    number of records without a summary has gone down by the number of
    selected records that now hold a non-empty summary, which is at most
    the number counted as enriched. *)
Theorem batch_failure_is_isolated w before i after c cs1 n1 errs1 w1 e w2 :
  keys_missing (credentials w) = false →
  unenriched (stored w) = (before ++ i :: after)%list →
  stored w !! i = Some c →
  batch_loop env (credentials w) before (stored w) 0 [] w = (inr (cs1, n1, errs1), w1) →
  batch_attempt env (credentials w) c w1 = (inl e, w2) →
  ∃ cs' n errs w',
    enrich_batch env w
    = (inr (JBatch n (length (unenriched_from 0 cs')) errs, 200), w') ∧
    stored w' = cs' ∧
    error_line c e ∈ errs ∧
    cs' !! i = Some c ∧
    has_summary c = false ∧
    i ∈ unenriched (stored w') ∧
    searches (log w')
    = (searches (log w)
       ++ omap (search_of (credentials w) (stored w)) (before ++ i :: after)%list)%list ∧
    (∀ j cj, j ∈ after → stored w !! j = Some cj →
             (search_query cj, tavily (credentials w)) ∈ searches (log w')) ∧
    n + length errs = length (before ++ i :: after)%list ∧
    length (unenriched_from 0 cs')
    + length (filter (λ j, lacks_summary cs' j = false) (before ++ i :: after)%list)
    = length (unenriched_from 0 (stored w)) ∧
    (length (filter (λ j, lacks_summary cs' j = false) (before ++ i :: after)%list) ≤ n)%nat.
Proof.
  intros Hk Hsel Hc Hbefore Hfail.
  pose proof (NoDup_unenriched (stored w)) as Hnd. rewrite Hsel in Hnd.
  apply NoDup_app in Hnd as (_ & Hnb & Hnd). apply NoDup_cons in Hnd as [Hna _].
  assert (Hib : i ∉ before) by (intros Hin; apply (Hnb i Hin); by left).
  assert (Hisel : i ∈ unenriched (stored w))
    by (rewrite Hsel; apply elem_of_app; right; by left).
  assert (Hnos : has_summary c = false).
  { apply elem_of_unenriched in Hisel as (c' & Hc' & Hn). congruence. }
  (* the run up to [i], the failing attempt, the run over [after] *)
  pose proof (batch_loop_frame _ _ _ _ _ _ _ _ _ _ _ Hbefore) as (_ & _ & Hout1 & _).
  assert (Hc1 : cs1 !! i = Some c) by by rewrite (Hout1 i Hib).
  destruct (batch_loop_total env (credentials w) after cs1 n1
              (errs1 ++ [error_line c e])%list w2) as (cs' & n & errs & w' & Hafter).
  assert (Hrun : batch_loop env (credentials w) (unenriched (stored w)) (stored w) 0 [] w
                 = (inr (cs', n, errs), w')).
  { rewrite Hsel, (batch_loop_app _ _ _ _ _ _ _ _ _ _ _ _ Hbefore).
    rewrite (batch_loop_step _ _ _ _ _ _ _ c) by done. by rewrite Hfail. }
  exists cs', n, errs, (World (Some (MkData cs' (credentials w))) (log w')).
  pose proof (batch_loop_frame _ _ _ _ _ _ _ _ _ _ _ Hafter)
    as (_ & _ & Hout2 & _ & [new Hnew] & _).
  pose proof (batch_loop_frame _ _ _ _ _ _ _ _ _ _ _ Hrun)
    as (Hlen & _ & Hout & _ & _ & Hcnt & Hs).
  pose proof (batch_loop_remaining _ _ _ _ _ _ _ _ _ _ _ Hrun
                (NoDup_unenriched _)) as Hrem.
  destruct Hrem as [Hrem1 Hrem2].
  { intros j Hj. by apply lacks_summary_spec, elem_of_unenriched. }
  assert (Hci : cs' !! i = Some c) by by rewrite (Hout2 i Hna).
  rewrite Hsel in Hs, Hcnt, Hrem1, Hrem2.
  split_and!.
  - apply enrich_batch_run; [done | | done]. rewrite Hsel. by destruct before.
  - done.
  - rewrite Hnew. apply elem_of_app. left. apply elem_of_app. right. by left.
  - done.
  - done.
  - unfold stored at 1. simpl. apply (unenriched_again (stored w)); [done | | done |].
    + by apply lacks_summary_mono.
    + apply lacks_summary_spec. eauto.
  - done.
  - intros j cj Hj Hcj. simpl. rewrite Hs. apply elem_of_app. right.
    apply list_elem_of_omap. exists j. split.
    + apply elem_of_app. right. by right.
    + unfold search_of. by rewrite Hcj.
  - pose proof (unenriched_valid (stored w)) as Hval. rewrite Hsel in Hval.
    specialize (Hcnt Hval). simpl in Hcnt. lia.
  - done.
  - simpl in Hrem2. done.
Qed.

End BatchFailure.

Lemma batch_failure_is_isolated_witness :
  ∃ cs' n errs w',
    enrich_batch sample_outside failing_batch_world
    = (inr (JBatch n (length (unenriched_from 0 cs')) errs, 200), w') ∧
    "Nobody Home: 503 Server Error" ∈ errs ∧
    0 ∈ unenriched (stored w').
Proof.
  destruct (batch_failure_is_isolated sample_outside failing_batch_world
              [] 0 [1]
              (sample_conn "conn_0_1" "Nobody" "Home" "Engineer" None None)
              (stored failing_batch_world) 0 [] failing_batch_world
              (UpstreamError "503 Server Error")
              (World (file failing_batch_world)
                     [TavilySearch "Nobody Home Engineer Acme" "tvly-key"]))
    as (cs' & n & errs & w' & H1 & _ & H3 & _ & _ & H6 & _);
    [reflexivity | reflexivity | reflexivity | reflexivity | reflexivity |].
  exists cs', n, errs, w'. split; [exact H1|]. split; [exact H3 | exact H6].
Defined.

(** One record fails and one gets a blank summary: the answer counts one
    record as enriched, and as many records are without a summary as
    before the call. *)
Lemma blank_summary_is_counted_as_enriched :
  keys_missing (credentials failing_batch_world) = false ∧
  length (unenriched_from 0 (stored failing_batch_world)) = 2 ∧
  (enrich_batch sample_outside failing_batch_world).1
  = inr (JBatch 1 2 ["Nobody Home: 503 Server Error"], 200).
Proof. by vm_compute. Qed.

(** * Further properties *)

(** ** Stripping *)
Section Stripping.

Lemma lstrip_head s c r : lstrip s = String c r → isspace c = false.
Proof.
  induction s as [|a s IH]; simpl; [done|].
  destruct (isspace a) eqn:Ha; [done|]. by intros [= <- _].
Qed.

Lemma rstrip_cons c s :
  rstrip (String c s) = EmptyString ∨ ∃ r, rstrip (String c s) = String c r.
Proof.
  simpl. destruct (rstrip s); [|eauto].
  destruct (isspace c); eauto.
Qed.

Lemma rstrip_idemp s : rstrip (rstrip s) = rstrip s.
Proof.
  induction s as [|c s IH]; simpl; [done|].
  destruct (rstrip s) as [|a r] eqn:Hr.
  - destruct (isspace c) eqn:Hc; simpl; [done|]. by rewrite Hc.
  - change (rstrip (String c (String a r))) with
      (match rstrip (String a r) with
       | EmptyString => if isspace c then EmptyString else String c EmptyString
       | r0 => String c r0
       end).
    by rewrite IH.
Qed.

Lemma strip_idemp s : strip (strip s) = strip s.
Proof.
  unfold strip. destruct (lstrip s) as [|c l] eqn:Hl; [done|].
  pose proof (lstrip_head _ _ _ Hl) as Hc.
  destruct (rstrip_cons c l) as [-> | [r Hr]]; [done|].
  rewrite Hr. simpl lstrip. rewrite Hc, <- Hr. apply rstrip_idemp.
Qed.

Lemma length_slice_to n s : (String.length (slice_to n s) ≤ n)%nat.
Proof.
  revert s. induction n as [|n IH]; intros [|c s]; simpl; try lia.
  specialize (IH s). lia.
Qed.

End Stripping.

(** ** The summary generation *)
Section GenerateBlurb.

Variable env : outside.

Lemma generate_blurb_unfold sr name key :
  generate_blurb env sr name key
  = (text ← call (GeminiGenerate "gemini-2.5-flash-lite"
                     (blurb_prompt name (blurb_context sr)) key)
                  (λ l, gemini_answer env l "gemini-2.5-flash-lite"
                          (blurb_prompt name (blurb_context sr)) key);
     match text with
     | Some t => mret (strip t)
     | None => mret "Professional on LinkedIn."
     end).
Proof. reflexivity. Qed.

(** X1.  The summary generation sends the prompt built from the name
    and a context.  The context is never longer than 3000 characters and
    never blank: without results, or with results that give only
    whitespace, it is the placeholder. *)
Theorem blurb_context_bounded sr name key w :
  log (generate_blurb env sr name key w).2
  = (log w ++ [GeminiGenerate "gemini-2.5-flash-lite"
                 (blurb_prompt name (blurb_context sr)) key])%list ∧
  (String.length (blurb_context sr) ≤ 3000)%nat ∧
  strip (blurb_context sr) ≠ EmptyString ∧
  (results sr = None ∨ results sr = Some [] →
   blurb_context sr = "No search results found.").
Proof.
  split.
  { rewrite generate_blurb_unfold. unfold call, mbind, M_bind, mret, M_ret. simpl.
    by destruct (gemini_answer env (log w) "gemini-2.5-flash-lite"
                   (blurb_prompt name (blurb_context sr)) key) as [e|[t|]]. }
  unfold blurb_context.
  set (ctx := slice_to 3000 _). split_and!.
  - destruct (nonempty (strip ctx)); [apply length_slice_to | simpl; lia].
  - destruct (nonempty (strip ctx)) eqn:Hn; [|done].
    by destruct (strip ctx).
  - intros [H | H]; subst ctx; by rewrite H.
Qed.

(** X2.  A summary generation sends one call, to the short model, with the
    prompt built from the name and the context, and leaves the data file
    alone.  It raises exactly when the call raises.  What it returns has
    no whitespace at either end: the stripped text of the answer, or the
    fallback sentence when the answer has no text. *)
Theorem generate_blurb_contract sr name key w :
  log (generate_blurb env sr name key w).2
  = (log w ++ [GeminiGenerate "gemini-2.5-flash-lite"
                 (blurb_prompt name (blurb_context sr)) key])%list ∧
  file (generate_blurb env sr name key w).2 = file w ∧
  (generate_blurb env sr name key w).1
  = match gemini_answer env (log w) "gemini-2.5-flash-lite"
            (blurb_prompt name (blurb_context sr)) key with
    | inl e => inl e
    | inr (Some t) => inr (strip t)
    | inr None => inr "Professional on LinkedIn."
    end ∧
  (∀ b, (generate_blurb env sr name key w).1 = inr b → strip b = b).
Proof.
  rewrite generate_blurb_unfold. unfold call, mbind, M_bind, mret, M_ret. simpl.
  destruct (gemini_answer env (log w) "gemini-2.5-flash-lite"
              (blurb_prompt name (blurb_context sr)) key) as [e|[t|]]; simpl;
    split_and!; try done.
  - intros b [= <-]. apply strip_idemp.
  - by intros b [= <-].
Qed.

End GenerateBlurb.

Lemma generate_blurb_contract_witness :
  strip "Works at Acme." = "Works at Acme.".
Proof.
  apply (proj2 (proj2 (proj2 (generate_blurb_contract steady_outside (SearchResults None)
                                "Ann Lee" "AIza-key" initial_world)))).
  reflexivity.
Defined.

Lemma blurb_context_bounded_witness :
  blurb_context (SearchResults None) = "No search results found.".
Proof.
  apply (blurb_context_bounded sample_outside (SearchResults None) "Ann Lee" "AIza-key"
           initial_world).
  by left.
Defined.

(** ** Triggers that an earlier trigger shadows *)
Section Shadowing.

Lemma string_app_assoc (a b c : string) : (a +:+ b) +:+ c = a +:+ b +:+ c.
Proof.
  induction a as [|x a IH]; [done|].
  change (String x ((a +:+ b) +:+ c) = String x (a +:+ b +:+ c)). by f_equal.
Qed.

(** A word that occurs in a word that occurs in [s] occurs in [s]. *)
Lemma contains_trans x y s :
  contains x y = true → contains y s = true → contains x s = true.
Proof.
  rewrite !contains_spec. intros (a1 & b1 & ->) (a2 & b2 & ->).
  exists (a2 +:+ a1), (b1 +:+ b2). by rewrite !string_app_assoc.
Qed.

Lemma contains_shadow x y s :
  contains x y = true → contains x s = false → contains y s = false.
Proof.
  intros Hxy Hx. destruct (contains y s) eqn:Hy; [|done].
  by rewrite (contains_trans x y s) in Hx.
Qed.

(** The cascade of [categorize_position], one rule at a time. *)
Ltac cascade :=
  repeat match goal with
         | |- context [if re_search ?p ?t then _ else _] =>
             let H := fresh "Hrule" in destruct (re_search p t) eqn:H
         | H : context [if re_search ?p ?t then _ else _] |- _ =>
             let H' := fresh "Hrule" in destruct (re_search p t) eqn:H'
         end.

(** X3.  The Founders rule lists four words, and two of them change
    nothing: a title is classified as Founders exactly when, in lower
    case, it contains [founder] or [owner].  The alternatives
    [co-founder] and [cofounder] contain [founder]. *)
Theorem founders_rule_has_two_live_triggers pos :
  categorize_position pos = Founders ↔
  contains "founder" (lower (or_empty pos)) = true ∨
  contains "owner" (lower (or_empty pos)) = true.
Proof.
  unfold categorize_position.
  set (t := lower (or_empty pos)).
  assert (Hf : re_search re_founders t
               = contains "founder" t || contains "owner" t).
  { unfold re_search, re_founders. cbn [existsb trigger_matches].
    unfold t. rewrite lower_idemp. fold t.
    destruct (contains "founder" t) eqn:H1; [done|]. simpl.
    rewrite (contains_shadow "founder" "co-founder") by done.
    rewrite (contains_shadow "founder" "cofounder") by done.
    simpl. by rewrite orb_false_r. }
  rewrite Hf, <- orb_true_iff.
  destruct (contains "founder" t || contains "owner" t); [done|].
  split; [|done]. cascade; discriminate.
Qed.


End Shadowing.


(** ** Rows that are longer than the header *)
Section LongRows.

Lemma parse_rows_long now rows i acc r :
  r ∈ rows → Csv.surplus r ≠ None →
  parse_rows now i rows acc
  = inl (AttributeError "'NoneType' object has no attribute 'lower'").
Proof.
  intros Hr Hs. revert i acc. induction rows as [|r0 rows IH]; intros i acc.
  - by apply elem_of_nil in Hr.
  - simpl. unfold normalize_row at 1. destruct (Csv.surplus r0) eqn:H0; [done|].
    apply elem_of_cons in Hr as [->|Hr]; [congruence|].
    destruct (has_name _); by apply IH.
Qed.

Lemma make_row_surplus fieldnames r :
  length fieldnames < length r → Csv.surplus (Csv.make_row fieldnames r) ≠ None.
Proof. intros H. unfold Csv.make_row. by rewrite decide_True. Qed.

(** X5.  One data row with more fields than the header makes the whole
    parse raise the attribute error of the key normalisation, whatever
    the other rows hold; an upload of such a file raises it too and
    leaves the world as it was. *)
Theorem long_row_aborts_upload env lines header rest e r :
  Csv.reader (drop (find_header lines) lines) = (header :: rest, e) →
  r ∈ rest →
  length header < length r →
  (∀ now, parse_linkedin_csv now lines
          = inl (AttributeError "'NoneType' object has no attribute 'lower'")) ∧
  (∀ filename w,
      endswith ".csv" filename = true →
      upload_csv env (Some (filename, lines)) w
      = (inl (AttributeError "'NoneType' object has no attribute 'lower'"), w)).
Proof.
  intros Hrd Hr Hlen.
  assert (Hp : ∀ now, parse_linkedin_csv now lines
                 = inl (AttributeError "'NoneType' object has no attribute 'lower'")).
  { intros now. unfold parse_linkedin_csv, parse_from_header, Csv.DictReader.
    rewrite Hrd.
    rewrite (parse_rows_long now _ 0 [] (Csv.make_row header r)); [done | |].
    - apply list_elem_of_fmap. exists r. split; [done|].
      apply list_elem_of_filter. split; [|done].
      destruct r; [simpl in Hlen; lia | done].
    - by apply make_row_surplus. }
  split; [done|].
  intros filename w Hcsv. unfold upload_csv. rewrite Hcsv. simpl.
  unfold ask, mbind, M_bind, raise. simpl. by rewrite Hp.
Qed.

End LongRows.

Lemma long_row_aborts_upload_witness :
  upload_csv sample_outside (Some ("Connections.csv", long_row_lines)) failing_batch_world
  = (inl (AttributeError "'NoneType' object has no attribute 'lower'"), failing_batch_world).
Proof.
  destruct (long_row_aborts_upload sample_outside long_row_lines
              ["First Name"; "Last Name"] [["Jane"; "Doe"]; ["John"; "Roe"; "Jr"]]
              None ["John"; "Roe"; "Jr"]) as [_ H].
  - reflexivity.
  - apply list_elem_of_further, list_elem_of_here.
  - simpl. lia.
  - apply H. reflexivity.
Defined.

(** ** Columns are found by their normalised name *)
Section Columns.

Lemma dict_set_fresh {V} k (v : V) d :
  k ∉ d.*1 → Csv.dict_set k v d = (d ++ [(k, v)])%list.
Proof.
  induction d as [|[k' v'] d IH]; simpl; [done|].
  intros Hk. apply not_elem_of_cons in Hk as [Hne Hk].
  rewrite decide_False by done. by rewrite IH.
Qed.

Lemma foldl_dict_set_values (d : list (string * option string))
    (l : list (string * string)) :
  NoDup (app (d.*1) (l.*1)) →
  foldl (λ d kv, Csv.dict_set kv.1 (Some kv.2) d) d l
  = app d ((λ kv, (kv.1, Some kv.2)) <$> l).
Proof.
  revert d. induction l as [|[k v] l IH]; intros d Hnd; simpl.
  - by rewrite app_nil_r.
  - simpl in Hnd. apply NoDup_app in Hnd as (Hd & Hdl & Hl).
    apply NoDup_cons in Hl as [Hk Hl].
    rewrite dict_set_fresh.
    + rewrite IH.
      * by rewrite <- app_assoc.
      * rewrite fmap_app. simpl. apply NoDup_app. split_and!.
        -- apply NoDup_app. split_and!; [done | | apply NoDup_singleton].
           intros x Hx Hx'. apply list_elem_of_singleton in Hx' as ->.
           apply (Hdl k Hx). by left.
        -- intros x Hx Hx'. apply elem_of_app in Hx as [Hx|Hx].
           ++ apply (Hdl x Hx). by right.
           ++ apply list_elem_of_singleton in Hx as ->. done.
        -- done.
    + intros Hin. apply (Hdl k Hin). by left.
Qed.

Lemma foldl_dict_set_rest (d : list (string * option string)) (ks : list string) :
  NoDup (app (d.*1) ks) →
  foldl (λ d k, Csv.dict_set k None d) d ks = (d ++ ((λ k, (k, None)) <$> ks))%list.
Proof.
  revert d. induction ks as [|k ks IH]; intros d Hnd; simpl.
  - by rewrite app_nil_r.
  - apply NoDup_app in Hnd as (Hd & Hdl & Hl).
    apply NoDup_cons in Hl as [Hk Hl].
    rewrite dict_set_fresh.
    + rewrite IH.
      * by rewrite <- app_assoc.
      * rewrite fmap_app. simpl. apply NoDup_app. split_and!.
        -- apply NoDup_app. split_and!; [done | | apply NoDup_singleton].
           intros x Hx Hx'. apply list_elem_of_singleton in Hx' as ->.
           apply (Hdl k Hx). by left.
        -- intros x Hx Hx'. apply elem_of_app in Hx as [Hx|Hx].
           ++ apply (Hdl x Hx). by right.
           ++ apply list_elem_of_singleton in Hx as ->. done.
        -- done.
    + intros Hin. apply (Hdl k Hin). by left.
Qed.

(** The dictionary of a row that is not longer than a header without
    repeated names: the names in order, each with the value at its
    position, or [None] past the end of the row. *)
Lemma make_row_named fieldnames r :
  (length r ≤ length fieldnames)%nat →
  NoDup fieldnames →
  Csv.surplus (Csv.make_row fieldnames r) = None ∧
  Csv.named (Csv.make_row fieldnames r)
  = imap (λ j name, (name, r !! j)) fieldnames.
Proof.
  intros Hlen Hnd.
  assert (Hzip : foldl (λ d kv, Csv.dict_set kv.1 (Some kv.2) d) [] (zip fieldnames r)
                 = imap (λ j name, (name, r !! j)) (take (length r) fieldnames)).
  { rewrite foldl_dict_set_values.
    - simpl. apply list_eq. intros j.
      rewrite list_lookup_fmap, list_lookup_imap, lookup_zip_with, lookup_take.
      destruct (decide (j < length r)) as [Hj|Hj].
      + destruct (lookup_lt_is_Some_2 r j Hj) as [v Hv].
        rewrite Hv. by destruct (fieldnames !! j).
      + rewrite (lookup_ge_None_2 r j) by lia.
        by destruct (fieldnames !! j).
    - simpl. eapply sublist_NoDup; [exact Hnd|].
      assert ((zip fieldnames r).*1 = take (length r) fieldnames) as ->;
        [|apply sublist_take].
      apply list_eq. intros j.
      rewrite list_lookup_fmap, lookup_zip_with, lookup_take.
      destruct (decide (j < length r)) as [Hj|Hj].
      + destruct (lookup_lt_is_Some_2 r j Hj) as [v Hv].
        rewrite Hv. by destruct (fieldnames !! j).
      + rewrite (lookup_ge_None_2 r j) by lia.
        by destruct (fieldnames !! j). }
  assert (Himap : imap (λ j name, (name, r !! j)) fieldnames
                  = (imap (λ j name, (name, r !! j)) (take (length r) fieldnames)
                     ++ ((λ k : string, (k, @None string)) <$> drop (length r) fieldnames))%list).
  { rewrite <- (take_drop (length r) fieldnames) at 1.
    rewrite imap_app. f_equal.
    rewrite length_take, Nat.min_l by done.
    apply list_eq. intros j. rewrite list_lookup_fmap, list_lookup_imap.
    destruct (drop (length r) fieldnames !! j); [simpl|done].
    by rewrite (lookup_ge_None_2 r) by lia. }
  unfold Csv.make_row. rewrite decide_False by lia.
  destruct (decide (length r < length fieldnames)) as [Hlt|Hge]; simpl.
  - split; [done|]. rewrite Hzip, Himap.
    apply foldl_dict_set_rest.
    rewrite fmap_imap.
    assert (Hfst : imap (λ n, fst ∘ (λ name : string, (name, r !! n)))
                     (take (length r) fieldnames) = take (length r) fieldnames).
    { apply list_eq. intros j. rewrite list_lookup_imap.
      by destruct (take (length r) fieldnames !! j). }
    rewrite Hfst, take_drop. done.
  - split; [done|]. rewrite Hzip.
    by rewrite take_ge by lia.
Qed.

(** Inserting the items of a dictionary under normalised keys that are
    pairwise different: every item is found under its key, and nothing
    else is. *)
Lemma foldl_insert_lookup (f : string → string)
    (l : list (string * option string)) (m : gmap string (option string)) :
  (∀ key, key ∉ f <$> l.*1 →
          foldl (λ m kv, <[f kv.1 := kv.2]> m) m l !! key = m !! key) ∧
  (NoDup (f <$> l.*1) →
   ∀ k v, (k, v) ∈ l → foldl (λ m kv, <[f kv.1 := kv.2]> m) m l !! f k = Some v).
Proof.
  revert m. induction l as [|[k0 v0] l IH]; intros m; simpl.
  - split; [done|]. intros _ k v Hin. by apply elem_of_nil in Hin.
  - destruct (IH (<[f k0 := v0]> m)) as [IH1 IH2]. split.
    + intros key Hkey. apply not_elem_of_cons in Hkey as [Hne Hkey].
      rewrite IH1 by done. by apply lookup_insert_ne.
    + intros Hnd k v Hin. apply NoDup_cons in Hnd as [Hk0 Hnd].
      apply elem_of_cons in Hin as [[= -> ->]|Hin].
      * rewrite IH1 by done. apply lookup_insert_eq.
      * by apply IH2.
Qed.

(** X6.  The header is read without regard to case and to blanks around
    a name.  For a header whose normalised names are pairwise different
    and a row with no more fields than the header, the record that is
    built takes each of its seven fields from the column with the
    matching name: the field of the row at the position of that column, or
    [None] when the row ends before it.  A name that no column has gives
    the empty string. *)
Theorem columns_are_found_by_normalised_name fieldnames r :
  (length r ≤ length fieldnames)%nat →
  NoDup ((λ k, strip (lower k)) <$> fieldnames) →
  ∃ m, normalize_row (Csv.make_row fieldnames r) = inr m ∧
       (∀ j name, fieldnames !! j = Some name →
                  row_get m (strip (lower name)) = r !! j) ∧
       (∀ key, key ∉ (λ k, strip (lower k)) <$> fieldnames →
               row_get m key = Some EmptyString) ∧
       (∀ i ms j name,
           fieldnames !! j = Some name →
           (strip (lower name) = "first name" → firstName (build_conn i ms m) = r !! j) ∧
           (strip (lower name) = "last name" → lastName (build_conn i ms m) = r !! j) ∧
           (strip (lower name) = "email address" → email (build_conn i ms m) = r !! j) ∧
           (strip (lower name) = "company" → company (build_conn i ms m) = r !! j) ∧
           (strip (lower name) = "position" → position (build_conn i ms m) = r !! j) ∧
           (strip (lower name) = "url" → url (build_conn i ms m) = r !! j) ∧
           (strip (lower name) = "connected on" →
            connectedOn (build_conn i ms m) = r !! j)).
Proof.
  intros Hlen Hnd.
  destruct (make_row_named fieldnames r Hlen) as [Hs Hn].
  { by eapply NoDup_fmap_1. }
  unfold normalize_row. rewrite Hs, Hn. eexists. split; [done|].
  assert (Hkeys : (imap (λ j name, (name, r !! j)) fieldnames).*1 = fieldnames).
  { rewrite fmap_imap. apply list_eq. intros j. rewrite list_lookup_imap.
    by destruct (fieldnames !! j). }
  destruct (foldl_insert_lookup (λ k, strip (lower k))
              (imap (λ j name, (name, r !! j)) fieldnames) ∅) as [H1 H2].
  rewrite Hkeys in H1, H2.
  assert (Hcol : ∀ j name, fieldnames !! j = Some name →
            row_get (foldl (λ m kv, <[strip (lower kv.1) := kv.2]> m) ∅
                       (imap (λ j name, (name, r !! j)) fieldnames))
                    (strip (lower name)) = r !! j).
  { intros j name Hj. unfold row_get.
    rewrite (H2 Hnd name (r !! j)); [done|].
    apply list_elem_of_lookup. exists j. rewrite list_lookup_imap, Hj. done. }
  split_and!.
  - exact Hcol.
  - intros key Hkey. unfold row_get. by rewrite H1.
  - intros i ms j name Hj. specialize (Hcol j name Hj).
    split_and!; intros Hname; rewrite Hname in Hcol; exact Hcol.
Qed.

End Columns.

Lemma columns_are_found_by_normalised_name_witness :
  ∃ m, normalize_row (Csv.make_row [" First Name"; "LAST NAME "; "Company"] ["Jane"; "Doe"])
       = inr m ∧
       firstName (build_conn 0 1767225600000%Z m) = Some "Jane" ∧
       company (build_conn 0 1767225600000%Z m) = None ∧
       row_get m "position" = Some EmptyString.
Proof.
  destruct (columns_are_found_by_normalised_name
              [" First Name"; "LAST NAME "; "Company"] ["Jane"; "Doe"])
    as (m & Hm & _ & Habs & Hrec).
  - simpl. lia.
  - apply (bool_decide_unpack _). by vm_compute.
  - exists m. split; [exact Hm|]. split_and!.
    + apply (Hrec 0 1767225600000%Z 0 " First Name"); reflexivity.
    + apply (Hrec 0 1767225600000%Z 2 "Company"); reflexivity.
    + apply Habs. apply (bool_decide_unpack _). by vm_compute.
Defined.

(** ** Identifiers *)
Section Identifiers.

Lemma is_digit_pretty_N_char x : is_digit (pretty_N_char x) = true.
Proof. unfold pretty_N_char. by repeat case_match. Qed.

Lemma digits_pretty_N_go x s : digits s = true → digits (pretty_N_go x s) = true.
Proof.
  revert s. induction (N.lt_wf_0 x) as [x _ IH]; intros s Hs.
  assert (x = 0 ∨ 0 < x)%N as [->|Hx] by lia.
  - by rewrite pretty_N_go_0.
  - rewrite pretty_N_go_step by done. apply IH.
    + by apply N.div_lt.
    + simpl. by rewrite is_digit_pretty_N_char, Hs.
Qed.

Lemma digits_pretty_nat (i : nat) : digits (pretty i) = true.
Proof.
  unfold pretty, pretty_nat, pretty, pretty_N.
  case_decide; [done|]. by apply digits_pretty_N_go.
Qed.

(** Two texts that start with digits up to the first underscore start
    with the same digits when they are equal. *)
Lemma digits_before_underscore s1 s2 x y :
  digits s1 = true → digits s2 = true →
  s1 +:+ "_" +:+ x = s2 +:+ "_" +:+ y → s1 = s2 ∧ x = y.
Proof.
  revert s2. induction s1 as [|a s1 IH]; intros [|b s2] H1 H2 Heq.
  - change (String "_" x = String "_" y) in Heq. by injection Heq as ->.
  - exfalso. change (String "_" x = String b (s2 +:+ "_" +:+ y)) in Heq.
    injection Heq as <- _. simpl in H2. done.
  - exfalso. change (String a (s1 +:+ "_" +:+ x) = String "_" y) in Heq.
    injection Heq as -> _. simpl in H1. done.
  - change (String a (s1 +:+ "_" +:+ x) = String b (s2 +:+ "_" +:+ y)) in Heq.
    injection Heq as -> Heq. simpl in H1, H2.
    apply andb_true_iff in H1 as [_ H1]. apply andb_true_iff in H2 as [_ H2].
    destruct (IH s2 H1 H2 Heq) as [-> ->]. done.
Qed.

Lemma conn_id_inj i j ms ms' :
  conn_id i ms = conn_id j ms' → i = j ∧ ms = ms'.
Proof.
  unfold conn_id. intros H%(inj (String.app "conn_")).
  apply digits_before_underscore in H as [Hi Hms]; [|apply digits_pretty_nat..].
  split; by apply (inj pretty).
Qed.

Lemma id_classify c : id (classify c) = id c.
Proof. done. Qed.

Lemma NoDup_ids_kept now rows' :
  NoDup (id <$> (classify <$>
           filter (λ c, has_name c = true)
             (imap (λ k r, build_conn (0 + k) (now (0 + k)) r) rows'))).
Proof.
  rewrite <- list_fmap_compose.
  eapply sublist_NoDup;
    [|apply (fmap_sublist (id ∘ classify)), sublist_filter].
  apply NoDup_alt. intros i j x.
  rewrite !list_lookup_fmap, !list_lookup_imap.
  destruct (rows' !! i) as [ri|]; [|done].
  destruct (rows' !! j) as [rj|]; [|done].
  intros Hi Hj.
  assert (H : Some (conn_id (0 + i) (now (0 + i))) = Some (conn_id (0 + j) (now (0 + j))))
    by (rewrite <- Hj in Hi; exact Hi).
  apply (inj Some), conn_id_inj in H as [H _]. lia.
Qed.

Lemma parse_linkedin_csv_ids now lines cs :
  parse_linkedin_csv now lines = inr cs → NoDup (id <$> cs).
Proof.
  intros Hp. unfold parse_linkedin_csv, parse_from_header in Hp.
  destruct (Csv.DictReader (drop (find_header lines) lines)) as [rows e].
  destruct (parse_rows now 0 rows []) as [e'|cs'] eqn:Hrows; [done|].
  destruct e; [done|]. injection Hp as <-.
  apply parse_rows_spec in Hrows as (rows' & _ & ->).
  apply NoDup_ids_kept.
Qed.

(** X7.  The identifier of a record names its row: two identifiers are
    equal only for the same ordinal and the same clock reading.  So the
    records that a parse returns have pairwise different identifiers,
    whatever the clock reads. *)
Theorem parsed_ids_are_distinct now lines cs :
  parse_linkedin_csv now lines = inr cs →
  NoDup (id <$> cs) ∧
  (∀ i j ms ms', conn_id i ms = conn_id j ms' → i = j ∧ ms = ms').
Proof.
  intros Hp. split; [by eapply parse_linkedin_csv_ids | apply conn_id_inj].
Qed.

End Identifiers.

Lemma parsed_ids_are_distinct_witness :
  NoDup (id <$> match parse_linkedin_csv (λ _, 1767225600000%Z) sample_lines with
                | inr cs => cs
                | inl _ => []
                end).
Proof.
  apply (parsed_ids_are_distinct (λ _, 1767225600000%Z) sample_lines).
  vm_compute. reflexivity.
Defined.

(** ** Uploads *)
Section Upload.

Variable env : outside.

(** X8.  An upload sends nothing.  One that is refused (no file, a name
    that does not end in [.csv], no record in the file) answers with
    status 400, and one that raises answers nothing; both leave the world
    as it was.  One that succeeds stores exactly the records of the
    parse, in place of all records stored before, keeps the credentials,
    and reports their number, which is not zero. *)
Theorem upload_replaces_or_keeps u w :
  match upload_csv env u w with
  | (inr (JUploaded n, status), w') =>
      status = 200 ∧ (0 < n)%nat ∧ n = length (stored w') ∧
      credentials w' = credentials w ∧ log w' = log w ∧
      ∃ filename lines,
        u = Some (filename, lines) ∧ endswith ".csv" filename = true ∧
        parse_linkedin_csv (time_ms env (log w)) lines = inr (stored w')
  | (inr (JError msg, status), w') =>
      status = 400 ∧ w' = w ∧
      msg ∈ ["No file uploaded"; "Must be a CSV file"; "No connections found in CSV"]
  | (inr _, _) => False
  | (inl e, w') => w' = w
  end.
Proof.
  unfold upload_csv. destruct u as [[filename lines]|].
  2: { simpl. split_and!; [done..|]. apply list_elem_of_here. }
  destruct (endswith ".csv" filename) eqn:Hcsv; simpl.
  2: { split_and!; [done..|]. apply list_elem_of_further, list_elem_of_here. }
  unfold ask, mbind, M_bind, raise; simpl.
  destruct (parse_linkedin_csv (time_ms env (log w)) lines) as [e|cs] eqn:Hp; [done|].
  destruct cs as [|c cs].
  { simpl. split_and!; [done..|]. do 2 apply list_elem_of_further. apply list_elem_of_here. }
  simpl.
  split_and!; try done; [lia|]. exists filename, lines. done.
Qed.

End Upload.

(** ** The single enrichment *)
Section EnrichOne.

Variable env : outside.

Lemma generate_blurb_stripped sr name key w b w1 :
  generate_blurb env sr name key w = (inr b, w1) → strip b = b.
Proof.
  rewrite generate_blurb_unfold. unfold call, mbind, M_bind, mret, M_ret. simpl.
  destruct (gemini_answer env (log w) "gemini-2.5-flash-lite"
              (blurb_prompt name (blurb_context sr)) key) as [e|[t|]]; simpl;
    intros [= <- <-]; [apply strip_idemp | done].
Qed.

(** The attempt leaves the data file alone, and its summary has no
    whitespace at either end. *)
Lemma enrich_attempt_world k c w x w1 :
  enrich_attempt env k c w = (x, w1) →
  file w1 = file w ∧ ∀ b t, x = inr (b, t) → strip b = b.
Proof.
  unfold enrich_attempt, mbind, M_bind, ask, mret, M_ret.
  pose proof (search_tavily_file env (search_query c) (tavily k) w) as Hf1.
  destruct (search_tavily env (search_query c) (tavily k) w) as [[e|sr] w0];
    simpl in Hf1.
  { intros [= <- <-]. done. }
  pose proof (generate_blurb_file env sr (person_name c) (gemini k) w0) as Hf2.
  destruct (generate_blurb env sr (person_name c) (gemini k) w0) as [[e|b] w2] eqn:Hg;
    simpl in Hf2.
  { intros [= <- <-]. split; [congruence | done]. }
  intros [= <- <-]. split; [congruence|].
  intros b' t' [= <- <-]. by eapply generate_blurb_stripped.
Qed.

(** The four ways the route can go. *)
Lemma enrich_connection_cases cid w :
  (keys_missing (credentials w) = true ∧
   enrich_connection env cid w = (inr (JError "API keys not configured", 400), w)) ∨
  (keys_missing (credentials w) = false ∧
   list_find (λ c, Some (id c) = cid) (stored w) = None ∧
   enrich_connection env cid w = (inr (JError "Connection not found", 404), w)) ∨
  (keys_missing (credentials w) = false ∧
   ∃ i c e w1,
     list_find (λ c, Some (id c) = cid) (stored w) = Some (i, c) ∧
     enrich_attempt env (credentials w) c w = (inl e, w1) ∧
     enrich_connection env cid w = (inr (JError (str_exn e), 500), w1)) ∨
  (keys_missing (credentials w) = false ∧
   ∃ i c b t w1,
     list_find (λ c, Some (id c) = cid) (stored w) = Some (i, c) ∧
     enrich_attempt env (credentials w) c w = (inr (b, t), w1) ∧
     enrich_connection env cid w
     = (inr (JBlurb b, 200),
        World (Some (MkData (<[i := set_enrichment c b t]> (stored w)) (credentials w)))
              (log w1))).
Proof.
  unfold enrich_connection, load_data, mbind, M_bind, mret, M_ret.
  cbn -[keys_missing list_find search_tavily generate_blurb search_query person_name].
  fold (credentials w) (stored w).
  destruct (keys_missing (credentials w)) eqn:Hk; [by left|]. right.
  destruct (list_find _ (stored w)) as [[i c]|] eqn:Hfind; [|by left]. right.
  unfold try_except, enrich_attempt, mbind, M_bind, ask, save_data, mret, M_ret.
  destruct (search_tavily env (search_query c) (tavily (credentials w)) w)
    as [[e|sr] w0] eqn:Hs.
  { left. split; [done|]. exists i, c, e, w0. by rewrite Hs. }
  destruct (generate_blurb env sr (person_name c) (gemini (credentials w)) w0)
    as [[e|b] w2] eqn:Hg.
  { left. split; [done|]. exists i, c, e, w2. by rewrite Hs, Hg. }
  right. split; [done|]. exists i, c, b, (gmtime env (log w2)), w2.
  by rewrite Hs, Hg.
Qed.


End EnrichOne.


(** ** What a batch sends, and how long it pauses *)
Section BatchEvents.

Variable env : outside.
Variable k : api_keys.

Lemma slept_app l1 l2 : slept (l1 ++ l2) = slept l1 + slept l2.
Proof.
  induction l1 as [|ev l1 IH]; simpl; [done|].
  destruct ev; simpl; rewrite ?IH; lia.
Qed.

Lemma generations_app l1 l2 : generations (l1 ++ l2) = generations l1 + generations l2.
Proof. unfold generations. by rewrite omap_app, length_app. Qed.

(** The three ways an attempt can go, with the events of each: the
    search raises; the search answers and, after the short pause, the
    generation raises; both answer, and the long pause follows. *)
Lemma batch_attempt_cases c w :
  (∃ e, batch_attempt env k c w
        = (inl e, World (file w)
                    (log w ++ [TavilySearch (search_query c) (tavily k)])%list)) ∨
  (∃ e p, batch_attempt env k c w
          = (inl e, World (file w)
                      (log w ++ [TavilySearch (search_query c) (tavily k); Sleep 100;
                                 GeminiGenerate "gemini-2.5-flash-lite" p (gemini k)])%list)) ∨
  (∃ b t p, batch_attempt env k c w
            = (inr (b, t),
               World (file w)
                 (log w ++ [TavilySearch (search_query c) (tavily k); Sleep 100;
                            GeminiGenerate "gemini-2.5-flash-lite" p (gemini k);
                            Sleep 4000])%list) ∧
            strip b = b ∧ (never_blank env → b ≠ EmptyString)).
Proof.
  unfold batch_attempt, search_tavily, call, emit, ask, mbind, M_bind, mret, M_ret.
  simpl.
  destruct (tavily_answer env (log w) (search_query c) (tavily k)) as [e|sr]; simpl.
  { left. by exists e. }
  right. rewrite generate_blurb_unfold. unfold call, mbind, M_bind, mret, M_ret. simpl.
  match goal with |- context [gemini_answer env ?l ?m ?p ?key] =>
    destruct (gemini_answer env l m p key) as [e|[t|]] eqn:Ha end; simpl.
  - left. eexists e, _. by rewrite <- !app_assoc.
  - right. eexists (strip t), _, _. rewrite <- !app_assoc. split_and!; [done | |].
    + apply strip_idemp.
    + intros Hnb. by eapply Hnb.
  - right. eexists _, _, _. rewrite <- !app_assoc. split_and!; done.
Qed.

Lemma batch_attempt_events c w :
  keys_missing k = false →
  ∃ new,
    log (batch_attempt env k c w).2 = (log w ++ new)%list ∧
    Forall (sent_with k) new ∧
    length (searches new) = 1 ∧
    (generations new ≤ 1)%nat ∧
    match (batch_attempt env k c w).1 with
    | inl _ => slept new = 100 * generations new
    | inr (b, t) =>
        generations new = 1 ∧ slept new = 4100 ∧
        (never_blank env → b ≠ EmptyString)
    end.
Proof.
  intros Hk.
  assert (Hkeys : tavily k ≠ EmptyString ∧ gemini k ≠ EmptyString).
  { split; intros H; assert (keys_missing k = true) as Hm
      by (apply keys_missing_spec; auto); congruence. }
  destruct Hkeys as [Ht Hg].
  destruct (batch_attempt_cases c w)
    as [[e ->] | [(e & p & ->) | (b & t & p & -> & _ & Hnb)]];
    eexists; (split; [reflexivity|]); split_and!; try done;
    try (by repeat constructor).

Qed.

(** The events of a run of the loop. *)
Lemma batch_loop_events sel cs n errs w cs' n' errs' w' :
  keys_missing k = false →
  batch_loop env k sel cs n errs w = (inr (cs', n', errs'), w') →
  ∃ new,
    log w' = (log w ++ new)%list ∧
    Forall (sent_with k) new ∧
    (n ≤ n')%nat ∧
    (n' - n ≤ generations new)%nat ∧
    (generations new ≤ length (searches new))%nat ∧
    length (searches new) + n + length errs = n' + length errs' ∧
    slept new = 100 * generations new + 4000 * (n' - n).
Proof.
  intros Hk. revert sel cs n errs w cs' n' errs' w'.
  apply (batch_loop_inv env k
    (λ sel cs n errs w cs' n' errs' w',
       ∃ new,
         log w' = (log w ++ new)%list ∧
         Forall (sent_with k) new ∧
         (n ≤ n')%nat ∧
         (n' - n ≤ generations new)%nat ∧
         (generations new ≤ length (searches new))%nat ∧
         length (searches new) + n + length errs = n' + length errs' ∧
         slept new = 100 * generations new + 4000 * (n' - n))).
  - intros cs n errs w. exists []. rewrite app_nil_r.
    change (generations []) with 0. change (slept []) with 0.
    change (length (searches [])) with 0.
    split_and!; [done | done | lia..].
  - intros i rest cs n errs w cs' n' errs' w' _ _ IH. exact IH.
  - intros i rest cs n errs w c e w1 cs' n' errs' w' _ Ha _
      (new2 & Hl2 & Hs2 & Hn & Hg & Hq & Hc & Hp).
    destruct (batch_attempt_events c w Hk) as (new1 & Hl1 & Hs1 & Hq1 & Hg1 & Hp1).
    rewrite Ha in Hl1, Hp1. simpl in Hl1, Hp1.
    exists (new1 ++ new2)%list.
    rewrite Hl2, Hl1, <- app_assoc, generations_app, searches_app, length_app, slept_app.
    rewrite ?length_app in Hc. change (length [error_line c e]) with 1 in Hc.
    split_and!; [done | by apply Forall_app | lia..].
  - intros i rest cs n errs w c b t w1 cs' n' errs' w' _ Ha _
      (new2 & Hl2 & Hs2 & Hn & Hg & Hq & Hc & Hp).
    destruct (batch_attempt_events c w Hk) as (new1 & Hl1 & Hs1 & Hq1 & Hg1 & Hp1).
    rewrite Ha in Hl1, Hp1. simpl in Hl1, Hp1. destruct Hp1 as (Hg1' & Hp1 & _).
    exists (new1 ++ new2)%list.
    rewrite Hl2, Hl1, <- app_assoc, generations_app, searches_app, length_app, slept_app.
    split_and!; [done | by apply Forall_app | lia..].
Qed.

End BatchEvents.

(** ** The answer of a batch *)
Section BatchRoute.

Variable env : outside.

Lemma length_unenriched cs :
  length (unenriched cs) = (10 `min` remaining_count cs)%nat.
Proof. unfold unenriched, remaining_count. by rewrite length_take. Qed.

Lemma unenriched_nil cs : unenriched cs = [] ↔ remaining_count cs = 0.
Proof.
  unfold unenriched, remaining_count.
  destruct (unenriched_from 0 cs); simpl; split; done.
Qed.

(** The three ways the route can go. *)
Lemma enrich_batch_cases w :
  (keys_missing (credentials w) = true ∧
   enrich_batch env w = (inr (JError "API keys not configured", 400), w)) ∨
  (keys_missing (credentials w) = false ∧
   remaining_count (stored w) = 0 ∧
   enrich_batch env w = (inr (JBatchNone 0 0, 200), w)) ∨
  (keys_missing (credentials w) = false ∧
   remaining_count (stored w) ≠ 0 ∧
   ∃ cs' n errs w1,
     batch_loop env (credentials w) (unenriched (stored w)) (stored w) 0 [] w
     = (inr (cs', n, errs), w1) ∧
     enrich_batch env w
     = (inr (JBatch n (remaining_count cs') errs, 200),
        World (Some (MkData cs' (credentials w))) (log w1))).
Proof.
  destruct (keys_missing (credentials w)) eqn:Hk.
  { left. split; [done|]. by apply enrich_batch_missing. }
  right. destruct (decide (remaining_count (stored w) = 0)) as [Hz|Hnz].
  { left. split_and!; [done..|]. apply enrich_batch_none; [done|].
    by apply unenriched_nil. }
  right. split_and!; [done..|].
  destruct (batch_loop_total env (credentials w) (unenriched (stored w)) (stored w) 0 [] w)
    as (cs' & n & errs & w1 & Hrun).
  exists cs', n, errs, w1. split; [done|].
  apply enrich_batch_run; [done | | done].
  by rewrite unenriched_nil.
Qed.

(** The counts of a run over the selection of the route. *)
Lemma batch_run_counts w cs' n errs w1 :
  batch_loop env (credentials w) (unenriched (stored w)) (stored w) 0 [] w
  = (inr (cs', n, errs), w1) →
  n + length errs = (10 `min` remaining_count (stored w))%nat ∧
  (remaining_count cs' ≤ remaining_count (stored w))%nat ∧
  (remaining_count (stored w) ≤ remaining_count cs' + n)%nat.
Proof.
  intros Hrun.
  pose proof (batch_loop_frame _ _ _ _ _ _ _ _ _ _ _ Hrun)
    as (_ & _ & _ & _ & _ & Hcnt & _).
  specialize (Hcnt (unenriched_valid _)). rewrite length_unenriched in Hcnt.
  destruct (batch_loop_remaining _ _ _ _ _ _ _ _ _ _ _ Hrun (NoDup_unenriched _))
    as [Hrem1 Hrem2].
  { intros j Hj. by apply lacks_summary_spec, elem_of_unenriched. }
  change (length (@nil string)) with 0 in Hcnt.
  unfold remaining_count in *. split_and!; lia.
Qed.

(** X10.  The batch route always answers.  Without a credential it
    refuses and changes nothing; with no record left without a summary
    it answers zero and zero and changes nothing.  Otherwise it works on
    the first ten, or fewer, of the records without a summary: each of
    them is counted as enriched or has a line in the error list; the
    number it reports as remaining is that of the stored records without a
    summary after the call, which is not above the number before the call
    and not below that number less the records counted as enriched. *)
Theorem batch_accounting w :
  match enrich_batch env w with
  | (inr (JBatch n remaining errs, status), w') =>
      status = 200 ∧ keys_missing (credentials w) = false ∧
      credentials w' = credentials w ∧
      remaining_count (stored w) ≠ 0 ∧
      n + length errs = (10 `min` remaining_count (stored w))%nat ∧
      remaining = remaining_count (stored w') ∧
      (remaining ≤ remaining_count (stored w))%nat ∧
      (remaining_count (stored w) ≤ remaining + n)%nat
  | (inr (JBatchNone n remaining, status), w') =>
      status = 200 ∧ keys_missing (credentials w) = false ∧
      n = 0 ∧ remaining = 0 ∧ remaining_count (stored w) = 0 ∧ w' = w
  | (inr (JError msg, status), w') =>
      status = 400 ∧ msg = "API keys not configured" ∧
      keys_missing (credentials w) = true ∧ w' = w
  | _ => False
  end.
Proof.
  destruct (enrich_batch_cases w)
    as [[Hk ->] | [(Hk & Hz & ->) | (Hk & Hnz & cs' & n & errs & w1 & Hrun & ->)]];
    [done | done |].
  destruct (batch_run_counts _ _ _ _ _ Hrun) as (H1 & H2 & H3).
  unfold stored at 2 4. simpl. done.
Qed.

(** When the generation never answers with a blank text, a record
    counted as enriched holds a summary. *)
Lemma batch_loop_exact k sel cs n errs w cs' n' errs' w' :
  never_blank env →
  keys_missing k = false →
  batch_loop env k sel cs n errs w = (inr (cs', n', errs'), w') →
  NoDup sel →
  (∀ j, j ∈ sel → lacks_summary cs j = true) →
  remaining_count cs' + n' = remaining_count cs + n.
Proof.
  intros Hnb Hk. revert sel cs n errs w cs' n' errs' w'.
  apply (batch_loop_inv env k
    (λ sel cs n errs w cs' n' errs' w',
       NoDup sel → (∀ j, j ∈ sel → lacks_summary cs j = true) →
       remaining_count cs' + n' = remaining_count cs + n)).
  - done.
  - intros i rest cs n errs w cs' n' errs' w' Hc _ _ _ Hl.
    specialize (Hl i (list_elem_of_here _ _)).
    unfold lacks_summary in Hl. by rewrite Hc in Hl.
  - intros i rest cs n errs w c e w1 cs' n' errs' w' Hc _ _ IH Hnd Hl.
    apply NoDup_cons in Hnd as [_ Hnd]. apply IH; [done|].
    intros j Hj. apply Hl. by right.
  - intros i rest cs n errs w c b t w1 cs' n' errs' w' Hc Ha _ IH Hnd Hl.
    apply NoDup_cons in Hnd as [Hi Hnd].
    assert (Hci : has_summary c = false).
    { specialize (Hl i (list_elem_of_here _ _)). unfold lacks_summary in Hl.
      rewrite Hc in Hl. by apply negb_true_iff. }
    assert (Hb : has_summary (set_enrichment c b t) = true).
    { destruct (batch_attempt_events env k c w Hk) as (new & _ & _ & _ & _ & Hp).
      rewrite Ha in Hp. simpl in Hp. destruct Hp as (_ & _ & Hne).
      specialize (Hne Hnb). unfold has_summary. simpl. by destruct b. }
    pose proof (remaining_insert cs i c (set_enrichment c b t) Hc Hci) as Hrem.
    rewrite Hb in Hrem. unfold remaining_count in *.
    rewrite IH; [lia | done |].
    intros j Hj. unfold lacks_summary.
    rewrite list_lookup_insert_ne by (intros ->; done).
    apply Hl. by right.
Qed.

(** X11.  When the generation never answers with a blank text, the count
    of a batch is exact: the records without a summary after the call and
    those counted as enriched add up to the records without a summary
    before the call. *)
Theorem batch_progress_is_exact w n remaining errs status w' :
  never_blank env →
  enrich_batch env w = (inr (JBatch n remaining errs, status), w') →
  remaining + n = remaining_count (stored w) ∧
  remaining_count (stored w') = remaining.
Proof.
  intros Hnb Hrun.
  destruct (enrich_batch_cases w)
    as [[Hk H] | [(Hk & Hz & H) | (Hk & Hnz & cs' & n1 & errs1 & w1 & Hloop & H)]];
    rewrite H in Hrun; [done | done |].
  injection Hrun as <- <- <- <- <-.
  split; [|done].
  rewrite (batch_loop_exact _ _ _ _ _ _ _ _ _ _ Hnb Hk Hloop (NoDup_unenriched _)); [lia|].
  intros j Hj. by apply lacks_summary_spec, elem_of_unenriched.
Qed.

End BatchRoute.

(** ** Polling the batch route *)
Section Polling.

Variable env : outside.

Lemma batch_attempt_succeeds k c w :
  never_raises env → ∃ b t w1, batch_attempt env k c w = (inr (b, t), w1).
Proof.
  intros [Hs Hg].
  unfold batch_attempt, search_tavily, call, emit, ask, mbind, M_bind, mret, M_ret.
  simpl.
  destruct (Hs (log w) (search_query c) (tavily k)) as [sr ->]. simpl.
  rewrite generate_blurb_unfold. unfold call, mbind, M_bind, mret, M_ret. simpl.
  match goal with |- context [gemini_answer env ?l ?m ?p ?key] =>
    destruct (Hg l m p key) as [[t|] ->] end; simpl; eauto.
Qed.

Lemma batch_loop_no_errors k sel cs n errs w cs' n' errs' w' :
  never_raises env →
  batch_loop env k sel cs n errs w = (inr (cs', n', errs'), w') →
  errs' = errs.
Proof.
  intros Hnr. revert sel cs n errs w cs' n' errs' w'.
  apply (batch_loop_inv env k (λ sel cs n errs w cs' n' errs' w', errs' = errs)).
  - done.
  - done.
  - intros i rest cs n errs w c e w1 cs' n' errs' w' _ Ha _ _.
    destruct (batch_attempt_succeeds k c w Hnr) as (b & t & w2 & Hok). congruence.
  - done.
Qed.

(** One call, when no provider call raises and no generated text is
    blank: ten records fewer are without a summary, or none is left. *)
Lemma enrich_batch_steady w :
  never_raises env → never_blank env →
  keys_missing (credentials w) = false →
  ∃ body w',
    enrich_batch env w = (inr (body, 200), w') ∧
    credentials w' = credentials w ∧
    remaining_count (stored w') = remaining_count (stored w) - 10 ∧
    (body = JBatchNone 0 0 ∨
     body = JBatch (10 `min` remaining_count (stored w))
                   (remaining_count (stored w) - 10) []).
Proof.
  intros Hnr Hnb Hk.
  destruct (enrich_batch_cases env w)
    as [[Hk' _] | [(_ & Hz & ->) | (_ & Hnz & cs' & n & errs & w1 & Hloop & ->)]].
  - congruence.
  - eexists _, _. split; [done|]. split_and!; [done | lia | by left].
  - pose proof (batch_loop_no_errors _ _ _ _ _ _ _ _ _ _ Hnr Hloop) as ->.
    destruct (batch_run_counts env _ _ _ _ _ Hloop) as (Hcnt & _ & _).
    pose proof (batch_loop_exact env _ _ _ _ _ _ _ _ _ _ Hnb Hk Hloop
                  (NoDup_unenriched _)) as Hex.
    assert (Hrem : remaining_count cs' + n = remaining_count (stored w)).
    { rewrite Hex; [lia|].
      intros j Hj. by apply lacks_summary_spec, elem_of_unenriched. }
    change (length (@nil string)) with 0 in Hcnt.
    eexists _, _. split; [done|]. split_and!.
    + done.
    + change (remaining_count cs' = remaining_count (stored w) - 10). lia.
    + right. f_equal; lia.
Qed.

Lemma serve_batches_steady m w :
  never_raises env → never_blank env →
  keys_missing (credentials w) = false →
  credentials (serve env (replicate m EnrichBatch) w) = credentials w ∧
  remaining_count (stored (serve env (replicate m EnrichBatch) w))
  = remaining_count (stored w) - 10 * m.
Proof.
  intros Hnr Hnb. revert w. induction m as [|m IH]; intros w Hk.
  - simpl. split; [done | lia].
  - cbn [replicate serve foldl handle].
    destruct (enrich_batch_steady w Hnr Hnb Hk) as (body & w' & Hrun & Hc & Hrem & _).
    rewrite Hrun. cbn [snd]. fold (serve env (replicate m EnrichBatch) w').
    destruct (IH w') as [IHc IHr]; [congruence|].
    rewrite IHc, IHr, Hc, Hrem. split; [done | lia].
Qed.

Lemma remaining_count_zero cs :
  remaining_count cs = 0 ↔ Forall (λ c, has_summary c = true) cs.
Proof.
  unfold remaining_count. rewrite length_unenriched_from. split.
  - intros H. apply Forall_forall. intros c Hc.
    destruct (has_summary c) eqn:Hs; [done|].
    assert (c ∈ filter (λ c, has_summary c = false) cs)
      by (by apply list_elem_of_filter).
    destruct (filter (λ c, has_summary c = false) cs); [|done].
    by apply elem_of_nil in H0.
  - intros H. induction H as [|c cs Hc _ IH]; [done|].
    rewrite filter_cons_False by congruence. done.
Qed.

(** X12.  Calling the batch route again and again finishes the work.  With
    both credentials present, when no provider call raises and no
    generated text is blank, each call leaves ten records fewer without a
    summary, so after [m] calls with ten times [m] at least the number of
    such records every stored record holds a summary. *)
Theorem polling_finishes_the_enrichment m w :
  never_raises env → never_blank env →
  keys_missing (credentials w) = false →
  remaining_count (stored (serve env (replicate m EnrichBatch) w))
  = remaining_count (stored w) - 10 * m ∧
  ((remaining_count (stored w) ≤ 10 * m)%nat →
   Forall (λ c, has_summary c = true) (stored (serve env (replicate m EnrichBatch) w))).
Proof.
  intros Hnr Hnb Hk.
  destruct (serve_batches_steady m w Hnr Hnb Hk) as [_ Hrem].
  split; [done|]. intros Hm. apply remaining_count_zero. lia.
Qed.

End Polling.

Lemma steady_outside_never_raises : never_raises steady_outside.
Proof. split; intros; simpl; eauto. Qed.

Lemma steady_outside_never_blank : never_blank steady_outside.
Proof. intros l model prompt key t [= <-]. by vm_compute. Qed.

Lemma batch_progress_is_exact_witness :
  0 + 2 = remaining_count (stored failing_batch_world) ∧
  remaining_count (stored (enrich_batch steady_outside failing_batch_world).2) = 0.
Proof.
  apply (batch_progress_is_exact steady_outside failing_batch_world 2 0 [] 200
           (enrich_batch steady_outside failing_batch_world).2).
  - exact steady_outside_never_blank.
  - reflexivity.
Defined.

Lemma polling_finishes_the_enrichment_witness :
  Forall (λ c, has_summary c = true)
    (stored (serve steady_outside (replicate 1 EnrichBatch) failing_batch_world)).
Proof.
  apply (polling_finishes_the_enrichment steady_outside 1 failing_batch_world).
  - exact steady_outside_never_raises.
  - exact steady_outside_never_blank.
  - reflexivity.
  - vm_compute. lia.
Defined.

(** ** Pauses and credentials of the calls *)
Section Calls.

Variable env : outside.


Lemma enrich_attempt_events k c w :
  keys_missing k = false →
  ∃ new,
    log (enrich_attempt env k c w).2 = (log w ++ new)%list ∧
    Forall (sent_with k) new ∧ slept new = 0.
Proof.
  intros Hk.
  assert (Hkeys : tavily k ≠ EmptyString ∧ gemini k ≠ EmptyString).
  { split; intros H; assert (keys_missing k = true) as Hm
      by (apply keys_missing_spec; auto); congruence. }
  destruct Hkeys as [Ht Hg].
  unfold enrich_attempt, search_tavily, call, ask, mbind, M_bind, mret, M_ret.
  simpl.
  destruct (tavily_answer env (log w) (search_query c) (tavily k)) as [e|sr]; simpl.
  { eexists. split; [done|]. split; [by repeat constructor | done]. }
  rewrite generate_blurb_unfold. unfold call, mbind, M_bind, mret, M_ret. simpl.
  match goal with |- context [gemini_answer env ?l ?m ?p ?key] =>
    destruct (gemini_answer env l m p key) as [e|[t|]] end; simpl;
    (eexists; split; [by rewrite <- !app_assoc|]);
    (split; [by repeat constructor | done]).
Qed.

(** The three ways the query route can go after its two checks. *)
Lemma chat_cases q w :
  (strip q = EmptyString ∧
   chat env q w = (inr (JError "No query provided", 400), w)) ∨
  (strip q ≠ EmptyString ∧ gemini (credentials w) = EmptyString ∧
   chat env q w = (inr (JError "Gemini API key not configured", 400), w)) ∨
  (strip q ≠ EmptyString ∧ gemini (credentials w) ≠ EmptyString ∧
   chat env q w
   = (match gemini_answer env (log w) "gemini-2.5-flash" (chat_prompt q (stored w))
              (gemini (credentials w)) with
      | inl e => inr (JError (str_exn e), 500)
      | inr (Some t) => inr (JChat (strip t), 200)
      | inr None => inr (JChat "Unable to generate response.", 200)
      end,
      World (file w)
        (log w ++ [GeminiGenerate "gemini-2.5-flash" (chat_prompt q (stored w))
                     (gemini (credentials w))])%list)).
Proof.
  unfold chat. destruct (strip q) as [|q0 qs] eqn:Hq; [by left|]. right.
  cbn [nonempty negb].
  unfold load_data, mbind, M_bind, mret, M_ret.
  cbn -[chat_with_network]. fold (credentials w) (stored w).
  destruct (gemini (credentials w)) as [|g0 gs] eqn:Hg; [by left|]. right.
  split; [done|]. split; [done|].
  cbn [nonempty negb]. unfold try_except, chat_with_network, call, mbind, M_bind,
    mret, M_ret. cbn -[chat_prompt].
  destruct (gemini_answer env (log w) "gemini-2.5-flash" (chat_prompt q (stored w))
              (String g0 gs)) as [e|[t|]]; done.
Qed.

Lemma upload_csv_log u w : log (upload_csv env u w).2 = log w.
Proof.
  unfold upload_csv. destruct u as [[filename lines]|]; [|done].
  destruct (endswith ".csv" filename); simpl; [|done].
  unfold ask, mbind, M_bind, raise; simpl.
  destruct (parse_linkedin_csv (time_ms env (log w)) lines) as [e|cs]; [done|].
  by destruct cs.
Qed.

(** X14.  Whatever the request, the events it adds come after those that
    were there, and every call among them carries the stored credential
    of its provider, which is not the empty string.  Only the two
    enrichment routes and the query route add events. *)
Theorem calls_carry_the_stored_keys r w :
  ∃ new,
    log (handle env r w).2 = (log w ++ new)%list ∧
    Forall (sent_with (credentials w)) new ∧
    match r with
    | EnrichConnection _ | EnrichBatch | Chat _ => True
    | _ => new = []
    end.
Proof.
  destruct r as [|t g|u|cid| |q|]; simpl.
  - exists []. by rewrite app_nil_r.
  - exists []. by rewrite app_nil_r.
  - exists []. by rewrite app_nil_r, upload_csv_log.
  - destruct (enrich_connection_cases env cid w)
      as [[_ ->] | [(_ & _ & ->) | [(Hk & i & c & e & w1 & _ & Ha & ->)
         | (Hk & i & c & b & t & w1 & _ & Ha & ->)]]].
    + exists []. by rewrite app_nil_r.
    + exists []. by rewrite app_nil_r.
    + destruct (enrich_attempt_events (credentials w) c w Hk) as (new & Hl & Hs & _).
      rewrite Ha in Hl. exists new. done.
    + destruct (enrich_attempt_events (credentials w) c w Hk) as (new & Hl & Hs & _).
      rewrite Ha in Hl. exists new. done.
  - destruct (enrich_batch_cases env w)
      as [[_ ->] | [(_ & _ & ->) | (Hk & _ & cs' & n & errs & w1 & Hloop & ->)]].
    + exists []. by rewrite app_nil_r.
    + exists []. by rewrite app_nil_r.
    + destruct (batch_loop_events env _ _ _ _ _ _ _ _ _ _ Hk Hloop)
        as (new & Hl & Hs & _).
      exists new. done.
  - destruct (chat_cases q w) as [[_ ->] | [(_ & _ & ->) | (_ & Hg & ->)]].
    + exists []. by rewrite app_nil_r.
    + exists []. by rewrite app_nil_r.
    + eexists. split; [done|]. split; [|done]. by repeat constructor.
  - exists []. by rewrite app_nil_r.
Qed.


End Calls.


(** ** What the requests keep *)
Section Invariants.

Variable env : outside.

Lemma enriched_from_refl cs : Forall2 enriched_from cs cs.
Proof. apply Forall2_same_length_lookup. split; [done|]. intros i c c' H1 H2.
  left. congruence. Qed.

Lemma enriched_from_trans cs1 cs2 cs3 :
  Forall2 enriched_from cs1 cs2 → Forall2 enriched_from cs2 cs3 →
  Forall2 enriched_from cs1 cs3.
Proof.
  apply Forall2_trans. intros c1 c2 c3 [->|(b & t & ->)] [->|(b' & t' & ->)].
  - by left.
  - right. eauto.
  - right. eauto.
  - right. exists b', t'. apply set_enrichment_twice.
Qed.

Lemma enriched_from_lookup cs cs' :
  length cs' = length cs →
  (∀ j c, cs !! j = Some c →
     cs' !! j = Some c ∨ ∃ b t, cs' !! j = Some (set_enrichment c b t)) →
  Forall2 enriched_from cs cs'.
Proof.
  intros Hlen H. apply Forall2_same_length_lookup. split; [done|].
  intros j c c' Hc Hc'. destruct (H j c Hc) as [H1 | (b & t & H1)].
  - left. congruence.
  - right. exists b, t. congruence.
Qed.

Lemma enriched_from_insert cs i c b t :
  cs !! i = Some c → Forall2 enriched_from cs (<[i := set_enrichment c b t]> cs).
Proof.
  intros Hc. apply enriched_from_lookup; [by rewrite length_insert|].
  intros j c0 Hj. destruct (decide (i = j)) as [->|Hne].
  - right. exists b, t. rewrite list_lookup_insert_eq by (by eapply lookup_lt_Some).
    congruence.
  - left. by rewrite list_lookup_insert_ne.
Qed.

Lemma enriched_from_ingested cs cs' :
  Forall2 enriched_from cs cs' →
  (Forall ingested cs → Forall ingested cs') ∧ id <$> cs' = id <$> cs.
Proof.
  induction 1 as [|c c' cs cs' Hc _ [IH1 IH2]]; [done|]. split.
  - intros [Hi Hcs]%Forall_cons. constructor; [|by apply IH1].
    destruct Hc as [->|(b & t & ->)]; [done|]. exact Hi.
  - rewrite !fmap_cons, IH2. f_equal. by destruct Hc as [->|(b & t & ->)].
Qed.

Lemma parse_linkedin_csv_ingested now lines cs :
  parse_linkedin_csv now lines = inr cs → Forall ingested cs.
Proof.
  unfold parse_linkedin_csv, parse_from_header.
  destruct (Csv.DictReader (drop (find_header lines) lines)) as [rows e].
  destruct (parse_rows now 0 rows []) as [e'|cs'] eqn:Hrows; [done|].
  destruct e; [done|]. intros [= <-].
  apply parse_rows_spec in Hrows as (rows' & _ & ->). simpl.
  apply Forall_fmap, Forall_forall. intros c Hc.
  apply list_elem_of_filter in Hc as [Hc _]. by split.
Qed.

(** What one request does to the stored records: it enriches some of
    them in place, or it is a reset, or an upload that stores the records
    of a parse. *)
Lemma handle_records r w :
  Forall2 enriched_from (stored w) (stored (handle env r w).2) ∨
  (r = ResetData ∧ stored (handle env r w).2 = []) ∨
  (∃ u now lines,
      r = UploadCsv u ∧ parse_linkedin_csv now lines = inr (stored (handle env r w).2)).
Proof.
  destruct r as [|t g|u|cid| |q|]; simpl.
  - left. apply enriched_from_refl.
  - left. apply enriched_from_refl.
  - unfold upload_csv. destruct u as [[filename lines]|];
      [|left; apply enriched_from_refl].
    destruct (endswith ".csv" filename); simpl; [|left; apply enriched_from_refl].
    unfold ask, mbind, M_bind, raise; simpl.
    destruct (parse_linkedin_csv (time_ms env (log w)) lines) as [e|cs] eqn:Hp;
      [left; apply enriched_from_refl|].
    destruct cs as [|c cs]; [left; apply enriched_from_refl|].
    right. right. by exists (Some (filename, lines)), (time_ms env (log w)), lines.
  - left.
    destruct (enrich_connection_cases env cid w)
      as [[_ ->] | [(_ & _ & ->) | [(Hk & i & c & e & w1 & _ & Ha & ->)
         | (Hk & i & c & b & t & w1 & Hfind & Ha & ->)]]].
    + apply enriched_from_refl.
    + apply enriched_from_refl.
    + apply enrich_attempt_world in Ha as [Hf _]. simpl.
      rewrite (stored_same_file w w1 Hf). apply enriched_from_refl.
    + apply list_find_Some in Hfind as (Hi & _ & _).
      by apply enriched_from_insert.
  - left.
    destruct (enrich_batch_cases env w)
      as [[_ ->] | [(_ & _ & ->) | (Hk & _ & cs' & n & errs & w1 & Hloop & ->)]].
    + apply enriched_from_refl.
    + apply enriched_from_refl.
    + apply batch_loop_frame in Hloop as (Hlen & _ & _ & Hin & _).
      by apply enriched_from_lookup.
  - left. destruct (chat_cases env q w) as [[_ ->] | [(_ & _ & ->) | (_ & _ & ->)]];
      apply enriched_from_refl.
  - right. left. done.
Qed.

Lemma handle_well_formed r w :
  Forall ingested (stored w) ∧ NoDup (id <$> stored w) →
  Forall ingested (stored (handle env r w).2) ∧ NoDup (id <$> stored (handle env r w).2).
Proof.
  intros [Hi Hn].
  destruct (handle_records r w) as [H | [[_ ->] | (u & now & lines & _ & Hp)]].
  - apply enriched_from_ingested in H as [H1 H2]. rewrite H2. auto.
  - split; constructor.
  - split.
    + by eapply parse_linkedin_csv_ingested.
    + by eapply parse_linkedin_csv_ids.
Qed.

(** X16.  In every world the routes reach from the start, and from any
    world where it holds: every stored record has a name that is not
    empty, carries the category that the classifier gives its title, and
    has an identifier that no other stored record has. *)
Theorem stored_records_stay_well_formed rs :
  (Forall ingested (stored (serve env rs initial_world)) ∧
   NoDup (id <$> stored (serve env rs initial_world))) ∧
  (∀ w, Forall ingested (stored w) ∧ NoDup (id <$> stored w) →
        Forall ingested (stored (serve env rs w)) ∧
        NoDup (id <$> stored (serve env rs w))).
Proof.
  assert (H : ∀ w, Forall ingested (stored w) ∧ NoDup (id <$> stored w) →
                   Forall ingested (stored (serve env rs w)) ∧
                   NoDup (id <$> stored (serve env rs w))).
  { induction rs as [|r rs IH]; intros w Hw; [done|].
    simpl. apply IH. by apply handle_well_formed. }
  split; [|done]. apply H. split; constructor.
Qed.

(** X17.  Only an upload and a reset change which records are stored.
    After any other requests the stored records are the same ones in the
    same order, each as it was or with a summary and a timestamp stored:
    no record is added, dropped or moved, and no identifier, name, title
    or category changes. *)
Theorem only_upload_and_reset_replace_records rs w :
  Forall (λ r, r ≠ ResetData ∧ ∀ u, r ≠ UploadCsv u) rs →
  Forall2 enriched_from (stored w) (stored (serve env rs w)) ∧
  length (stored (serve env rs w)) = length (stored w) ∧
  id <$> stored (serve env rs w) = id <$> stored w.
Proof.
  intros Hrs.
  assert (H : Forall2 enriched_from (stored w) (stored (serve env rs w))).
  { revert w. induction Hrs as [|r rs [Hr1 Hr2] _ IH]; intros w.
    - apply enriched_from_refl.
    - simpl. eapply enriched_from_trans; [|apply IH].
      destruct (handle_records r w) as [H | [[-> _] | (u & _ & _ & -> & _)]].
      + done.
      + done.
      + by destruct (Hr2 u). }
  split; [done|]. split.
  - symmetry. by eapply Forall2_length.
  - by apply enriched_from_ingested in H as [_ H].
Qed.

(** X18.  Saving credentials keeps the records and sends nothing; it
    stores both values as given, also an empty one.  The flag that the
    data route then reports is true exactly when both are non-empty, and
    exactly then the batch route does not refuse for a missing
    credential. *)
Theorem saved_keys_gate_the_enrichment t g w :
  (save_keys t g w).1 = inr (JSuccess, 200) ∧
  stored (save_keys t g w).2 = stored w ∧
  log (save_keys t g w).2 = log w ∧
  credentials (save_keys t g w).2 = ApiKeys t g ∧
  (get_data (save_keys t g w).2).1
  = inr (JData (stored w) (negb (keys_missing (ApiKeys t g))), 200) ∧
  (keys_missing (ApiKeys t g) = true ↔ t = EmptyString ∨ g = EmptyString) ∧
  (keys_missing (ApiKeys t g) = true ↔
   (enrich_batch env (save_keys t g w).2).1 = inr (JError "API keys not configured", 400)).
Proof.
  split_and!; try done.
  - unfold get_data, load_data, mbind, M_bind, mret, M_ret. simpl.
    do 3 f_equal. unfold keys_missing. simpl. by destruct (nonempty t), (nonempty g).
  - apply keys_missing_spec.
  - split.
    + intros Hk. by rewrite enrich_batch_missing.
    + intros Hb.
      destruct (enrich_batch_cases env (save_keys t g w).2)
        as [[Hk _] | [(_ & _ & H) | (_ & _ & cs' & n & errs & w1 & _ & H)]];
        [done | rewrite H in Hb; done..].
Qed.

(** X19.  A reset forgets the credentials together with the records: the
    data route then reports no records and no credentials, and both
    enrichment routes refuse until credentials are saved again.  It
    sends nothing, and a second reset changes nothing. *)
Theorem reset_forgets_records_and_keys w :
  reset_data w = (inr (JSuccess, 200), World None (log w)) ∧
  get_data (reset_data w).2 = (inr (JData [] false, 200), (reset_data w).2) ∧
  (∀ cid, (enrich_connection env cid (reset_data w).2).1
          = inr (JError "API keys not configured", 400)) ∧
  (enrich_batch env (reset_data w).2).1 = inr (JError "API keys not configured", 400) ∧
  reset_data (reset_data w).2 = reset_data w.
Proof. done. Qed.

End Invariants.

Lemma only_upload_and_reset_replace_records_witness :
  length (stored (serve sample_outside
                    [SaveKeys "tvly-key" "AIza-key"; EnrichBatch; GetData;
                     EnrichConnection (Some "conn_1_1"); Chat "Who works at Acme?"]
                    failing_batch_world))
  = length (stored failing_batch_world).
Proof.
  apply (only_upload_and_reset_replace_records sample_outside
           [SaveKeys "tvly-key" "AIza-key"; EnrichBatch; GetData;
            EnrichConnection (Some "conn_1_1"); Chat "Who works at Acme?"]
           failing_batch_world).
  repeat constructor; done.
Defined.

Lemma stored_records_stay_well_formed_witness :
  Forall ingested (stored (serve sample_outside [EnrichBatch] failing_batch_world)) ∧
  NoDup (id <$> stored (serve sample_outside [EnrichBatch] failing_batch_world)).
Proof.
  apply (proj2 (stored_records_stay_well_formed sample_outside [EnrichBatch])).
  split.
  - repeat constructor.
  - apply (bool_decide_unpack _). by vm_compute.
Defined.
